(** * AppInitializer: a shallow embedding of [app_initializer.cpp]

    The C++ class [app::AppInitializer] reads a binary command sequence,
    collects the VRD (variable resident data) declarations it contains,
    accepts data for each VRD and generates the final initialization
    sequence in which every VRD declaration is replaced by a DMA write.

    Conventions of the embedding.
    - [uint8_t] is [Byte.byte]; [uint32_t] and [size_t] values are [Z], and
      every operation the C++ performs in a fixed width has its wrap-around
      written out ([wrap32], [wrap64]; [size_t] is taken to be 64 bits and
      [int] 32 bits, as on LP64 platforms).
    - [std::vector<uint8_t>] is [list byte]; [std::string] is [string], built
      from raw bytes with [string_of_list_byte].  A vector holds at most
      [max_size()] elements, 2^63 - 1 on LP64: the statements about whole
      sequences carry the bound [vsize v < 2 ^ 63], under which no position
      computed by the loops wraps.
    - [std::unordered_map<std::string, VrdInfo>] is [gmap string VrdInfo];
      the order in which the C++ container is traversed is unspecified and is
      an interface of its own ([Traversal]).
    - A computation ends in a value, in a thrown exception, or in an access
      outside the vector, which C++ leaves undefined ([Undefined]); loops
      carry fuel, and [OutOfFuel] marks its exhaustion.
    - File input is not modelled: the constructor starts from the bytes that
      were read from the file. *)

From Stdlib Require Import ZArith Strings.Byte String Ascii.
From stdpp Require Import gmap strings list fin_maps.

Local Open Scope Z_scope.

(** ** Fixed-width integers *)

Definition wrap32 (z : Z) : Z := z mod 2 ^ 32.
Definition wrap64 (z : Z) : Z := z mod 2 ^ 64.

(** [static_cast<uint8_t>(value)] *)
Definition to_uint8 (z : Z) : byte :=
  default x00 (Byte.of_N (Z.to_N (z mod 256))).

(** [static_cast<uint32_t>(b)] for a byte [b] *)
Definition of_uint8 (b : byte) : Z := Z.of_N (Byte.to_N b).

(** ** Outcomes of a computation *)

Inductive exception : Type :=
| VrdNotFound (vrd_name : string)
    (* std::runtime_error("VRD not found: " + vrd_name) *)
| VrdSizeMismatch (vrd_name : string) (expected got : Z)
    (* std::runtime_error("VRD data size mismatch for ...") *)
| VrdNotLoaded (vrd_name : string)
    (* std::runtime_error("VRD data not loaded: " + name) *)
| UnknownCommandType (cmd_type : Z)
    (* std::runtime_error("Unknown command type: " + to_string(int)) *)
| MapOutOfRange.
    (* std::out_of_range thrown by unordered_map::at *)

Inductive outcome (A : Type) : Type :=
| Ok (a : A)
| Throw (e : exception)
| Undefined
| OutOfFuel.

Arguments Ok {A} a.
Arguments Throw {A} e.
Arguments Undefined {A}.
Arguments OutOfFuel {A}.

#[global] Instance outcome_ret : MRet outcome := @Ok.
#[global] Instance outcome_bind : MBind outcome := fun A B f m =>
  match m with
  | Ok a => f a
  | Throw e => Throw e
  | Undefined => Undefined
  | OutOfFuel => OutOfFuel
  end.

(** ** Data model *)

(** Command types in the binary sequence.  The enumeration has [uint8_t] as
    underlying type, so a [CommandType] variable holds any byte; [Unnamed]
    covers the values without an enumerator. *)
Inductive CommandType : Type :=
| APB_WRITE
| VRD_INFO
| PM_BINARY
| DMA_WRITE
| Unnamed (b : byte).

(** [static_cast<CommandType>(b)] *)
Definition CommandType_of_byte (b : byte) : CommandType :=
  match b with
  | x01 => APB_WRITE
  | x02 => VRD_INFO
  | x03 => PM_BINARY
  | x04 => DMA_WRITE
  | _ => Unnamed b
  end.

(** [static_cast<uint8_t>(cmd_type)] *)
Definition CommandType_to_byte (c : CommandType) : byte :=
  match c with
  | APB_WRITE => x01
  | VRD_INFO => x02
  | PM_BINARY => x03
  | DMA_WRITE => x04
  | Unnamed b => b
  end.

(** [static_cast<int>(cmd_type)] *)
Definition CommandType_to_int (c : CommandType) : Z :=
  of_uint8 (CommandType_to_byte c).

Record VrdInfo : Type := {
  name : string;
  size : Z;
  dst_addr : Z;
  data : list byte;
  is_loaded : bool
}.

Record AppInitializer : Type := {
  binary_sequence_ : list byte;
  vrd_map_ : gmap string VrdInfo
}.

(** ** Vector accesses *)

(** [v.size()] *)
Definition vsize (v : list byte) : Z := Z.of_nat (length v).

(** [v[pos]]: defined only for [pos < v.size()]. *)
Definition at_index (v : list byte) (pos : Z) : outcome byte :=
  if pos <? vsize v
  then from_option Ok Undefined (v !! Z.to_nat pos)
  else Undefined.

(** [std::string(reinterpret_cast<const char*>(&v[pos]), n)]: the element
    [v[pos]] must exist and the [n] bytes read must lie in the vector. *)
Definition string_at (v : list byte) (pos n : Z) : outcome string :=
  if (pos <? vsize v) && (pos + n <=? vsize v)
  then Ok (string_of_list_byte (take (Z.to_nat n) (drop (Z.to_nat pos) v)))
  else Undefined.

Definition read_uint32 (binary_sequence : list byte) (pos : Z) : outcome Z :=
  b0 ← at_index binary_sequence pos;
  b1 ← at_index binary_sequence (wrap64 (pos + 1));
  b2 ← at_index binary_sequence (wrap64 (pos + 2));
  b3 ← at_index binary_sequence (wrap64 (pos + 3));
  Ok (Z.lor (Z.lor (Z.lor (of_uint8 b0)
                          (Z.shiftl (of_uint8 b1) 8))
                   (Z.shiftl (of_uint8 b2) 16))
            (Z.shiftl (of_uint8 b3) 24)).

Definition append_uint32 (vec : list byte) (value : Z) : list byte :=
  vec ++ [to_uint8 value; to_uint8 (Z.shiftr value 8);
          to_uint8 (Z.shiftr value 16); to_uint8 (Z.shiftr value 24)].

(** The iterator range [begin() + src_pos, begin() + src_pos + length) must
    lie in the vector. *)
Definition copy_bytes (binary_sequence dest : list byte) (src_pos length : Z)
  : outcome (list byte) :=
  if src_pos + length <=? vsize binary_sequence
  then Ok (dest ++ take (Z.to_nat length) (drop (Z.to_nat src_pos) binary_sequence))
  else Undefined.

(** [vrd_map_.at(vrd_name)] *)
Definition map_at (vrd_map : gmap string VrdInfo) (vrd_name : string)
  : outcome VrdInfo :=
  from_option Ok (Throw MapOutOfRange) (vrd_map !! vrd_name).

(** ** parse_binary_sequence *)

(** One iteration of the [while] loop of [parse_binary_sequence], entered
    with [pos < binary_sequence_.size()]. *)
Definition parse_command (binary_sequence : list byte) (pos : Z)
  (vrd_map : gmap string VrdInfo) : outcome (Z * gmap string VrdInfo) :=
  tag ← at_index binary_sequence pos;
  let cmd_type := CommandType_of_byte tag in
  let pos := wrap64 (pos + 1) in
  length ← read_uint32 binary_sequence pos;
  let pos := wrap64 (pos + 4) in
  match cmd_type with
  | VRD_INFO =>
      let name_length := wrap32 (length - 8) in
      name ← string_at binary_sequence pos name_length;
      let pos := wrap64 (pos + name_length) in
      size ← read_uint32 binary_sequence pos;
      let pos := wrap64 (pos + 4) in
      dst_addr ← read_uint32 binary_sequence pos;
      let pos := wrap64 (pos + 4) in
      let vrd_info := {| name := name; size := size; dst_addr := dst_addr;
                         data := []; is_loaded := false |} in
      Ok (pos, <[name := vrd_info]> vrd_map)
  | _ => Ok (wrap64 (pos + length), vrd_map)
  end.

Fixpoint parse_loop (fuel : nat) (binary_sequence : list byte) (pos : Z)
  (vrd_map : gmap string VrdInfo) : outcome (gmap string VrdInfo) :=
  if pos <? vsize binary_sequence then
    match fuel with
    | O => OutOfFuel
    | S fuel =>
        '(pos, vrd_map) ← parse_command binary_sequence pos vrd_map;
        parse_loop fuel binary_sequence pos vrd_map
    end
  else Ok vrd_map.

(** Every iteration that returns advances [pos] by at least five, so
    [length binary_sequence_] iterations are enough (see [parse_loop_total]). *)
Definition parse_binary_sequence (self : AppInitializer) : outcome AppInitializer :=
  vrd_map ← parse_loop (length (binary_sequence_ self)) (binary_sequence_ self) 0
                       (vrd_map_ self);
  Ok {| binary_sequence_ := binary_sequence_ self; vrd_map_ := vrd_map |}.

(** The constructor, from the bytes read from the file. *)
Definition AppInitializer_new (contents : list byte) : outcome AppInitializer :=
  parse_binary_sequence {| binary_sequence_ := contents; vrd_map_ := ∅ |}.

(** ** load_vrd_data *)

(** The call returns its outcome together with the object as the call leaves
    it: both [throw]s precede the two assignments. *)
Definition load_vrd_data (vrd_name : string) (new_data : list byte)
  (self : AppInitializer) : outcome unit * AppInitializer :=
  match vrd_map_ self !! vrd_name with
  | None => (Throw (VrdNotFound vrd_name), self)
  | Some vrd =>
      if bool_decide (vsize new_data ≠ size vrd)
      then (Throw (VrdSizeMismatch vrd_name (size vrd) (vsize new_data)), self)
      else
        let vrd := {| name := name vrd; size := size vrd; dst_addr := dst_addr vrd;
                      data := new_data; is_loaded := true |} in
        (Ok (), {| binary_sequence_ := binary_sequence_ self;
                   vrd_map_ := <[vrd_name := vrd]> (vrd_map_ self) |})
  end.

(** ** generate_init_sequence *)

(** The order in which a range-[for] visits a [std::unordered_map] is
    unspecified: any enumeration of the entries, each exactly once. *)
Class Traversal : Type := {
  traverse : gmap string VrdInfo → list (string * VrdInfo);
  traverse_perm : ∀ m, traverse m ≡ₚ map_to_list m
}.

(** One admissible order: the key order of [map_to_list]. *)
#[global] Instance key_order_traversal : Traversal :=
  {| traverse := map_to_list; traverse_perm := λ m, Permutation_refl _ |}.

(** One iteration of the [while] loop of [generate_init_sequence]. *)
Definition generate_command (binary_sequence : list byte)
  (vrd_map : gmap string VrdInfo) (pos : Z) (init_sequence : list byte)
  : outcome (Z * list byte) :=
  tag ← at_index binary_sequence pos;
  let cmd_type := CommandType_of_byte tag in
  let pos := wrap64 (pos + 1) in
  length ← read_uint32 binary_sequence pos;
  let pos := wrap64 (pos + 4) in
  init_sequence ←
    match cmd_type with
    | APB_WRITE =>
        let init_sequence := init_sequence ++ [CommandType_to_byte cmd_type] in
        let init_sequence := append_uint32 init_sequence length in
        copy_bytes binary_sequence init_sequence pos length
    | VRD_INFO =>
        let name_length := wrap32 (length - 8) in
        vrd_name ← string_at binary_sequence pos name_length;
        vrd ← map_at vrd_map vrd_name;
        let init_sequence := init_sequence ++ [CommandType_to_byte DMA_WRITE] in
        let init_sequence :=
          append_uint32 init_sequence (wrap32 (wrap64 (vsize (data vrd) + 8))) in
        let init_sequence := append_uint32 init_sequence (dst_addr vrd) in
        let init_sequence := append_uint32 init_sequence (wrap32 (vsize (data vrd))) in
        Ok (init_sequence ++ data vrd)
    | DMA_WRITE =>
        let init_sequence := init_sequence ++ [CommandType_to_byte cmd_type] in
        let init_sequence := append_uint32 init_sequence length in
        copy_bytes binary_sequence init_sequence pos length
    | _ => Throw (UnknownCommandType (CommandType_to_int cmd_type))
    end;
  Ok (wrap64 (pos + length), init_sequence).

Fixpoint generate_loop (fuel : nat) (binary_sequence : list byte)
  (vrd_map : gmap string VrdInfo) (pos : Z) (init_sequence : list byte)
  : outcome (list byte) :=
  if pos <? vsize binary_sequence then
    match fuel with
    | O => OutOfFuel
    | S fuel =>
        '(pos, init_sequence) ←
          generate_command binary_sequence vrd_map pos init_sequence;
        generate_loop fuel binary_sequence vrd_map pos init_sequence
    end
  else Ok init_sequence.

Section Generate.
Context `{Traversal}.

(** The first loop: the first entry met that is not loaded. *)
Definition first_not_loaded (vrd_map : gmap string VrdInfo)
  : option (string * VrdInfo) :=
  List.find (λ vrd_pair, negb (is_loaded vrd_pair.2)) (traverse vrd_map).

(** The method is [const]: it returns a value and leaves the object as it
    is. *)
Definition generate_init_sequence (self : AppInitializer) : outcome (list byte) :=
  match first_not_loaded (vrd_map_ self) with
  | Some vrd_pair => Throw (VrdNotLoaded vrd_pair.1)
  | None =>
      generate_loop (length (binary_sequence_ self)) (binary_sequence_ self)
                    (vrd_map_ self) 0 []
  end.
End Generate.

(** ** Introspection *)

Definition get_vrd_count (self : AppInitializer) : nat :=
  base.size (vrd_map_ self).

Definition has_vrd (self : AppInitializer) (vrd_name : string) : bool :=
  bool_decide (is_Some (vrd_map_ self !! vrd_name)).

Definition get_vrd_info (self : AppInitializer) (vrd_name : string)
  : outcome VrdInfo :=
  from_option Ok (Throw (VrdNotFound vrd_name)) (vrd_map_ self !! vrd_name).

(** ** Sessions: the calls made on an object after its construction *)

Inductive call : Type :=
| LoadVrdData (vrd_name : string) (new_data : list byte)
| GenerateInitSequence.

(** The object after a call, whatever its outcome. *)
Definition after_call (c : call) (self : AppInitializer) : AppInitializer :=
  match c with
  | LoadVrdData vrd_name new_data => (load_vrd_data vrd_name new_data self).2
  | GenerateInitSequence => self
  end.

Definition after_calls (cs : list call) (self : AppInitializer) : AppInitializer :=
  foldl (λ self c, after_call c self) self cs.

(** ** The sample of the test program *)

(** The file written by [create_sample_binary_sequence]. *)
Definition sample_sequence : list byte :=
  [x01; x08; x00; x00; x00;  x00; x10; x00; x00;  x78; x56; x34; x12] ++
  [x02; x10; x00; x00; x00] ++ list_byte_of_string "test_vrd" ++
    [x10; x00; x00; x00;  x00; x20; x00; x00] ++
  [x04; x0c; x00; x00; x00;  x00; x30; x00; x00;  x04; x00; x00; x00;
   xaa; xbb; xcc; xdd].

(** The sixteen bytes [0 .. 15] loaded by [main]. *)
Definition sample_vrd_data : list byte :=
  [x00; x01; x02; x03; x04; x05; x06; x07; x08; x09; x0a; x0b; x0c; x0d; x0e; x0f].

(** * The wire format and the vocabulary of the statements *)

(** The four bytes of a little-endian 32-bit field. *)
Definition uint32_le (value : Z) : list byte :=
  [to_uint8 value; to_uint8 (Z.shiftr value 8);
   to_uint8 (Z.shiftr value 16); to_uint8 (Z.shiftr value 24)].

(** ** Commands on the wire

    The input format, as [create_sample_binary_sequence] of the test program
    writes it (see [sample_sequence_wire]): a binary sequence is a
    concatenation of commands, each a tag byte, a little-endian 32-bit
    length and a body of that length.  The body of a VRD_INFO command (tag
    0x02) is the VRD name followed by its size and its destination address,
    so its length is the name length plus 8. *)

Inductive command : Type :=
| Opaque (tag : byte) (body : list byte)
| Declaration (vrd_name : string) (vrd_size vrd_dst_addr : Z).

Definition wire_command (c : command) : list byte :=
  match c with
  | Opaque tag body => tag :: uint32_le (vsize body) ++ body
  | Declaration vrd_name vrd_size vrd_dst_addr =>
      x02 :: uint32_le (vsize (list_byte_of_string vrd_name) + 8) ++
      list_byte_of_string vrd_name ++ uint32_le vrd_size ++ uint32_le vrd_dst_addr
  end.

Definition wire (cs : list command) : list byte :=
  concat (map wire_command cs).

(** Every field fits its width, and only [Declaration] carries tag 0x02. *)
Definition well_formed (c : command) : Prop :=
  match c with
  | Opaque tag body => tag ≠ x02 ∧ vsize body < 2 ^ 32
  | Declaration vrd_name vrd_size vrd_dst_addr =>
      vsize (list_byte_of_string vrd_name) + 8 < 2 ^ 32 ∧
      0 ≤ vrd_size < 2 ^ 32 ∧ 0 ≤ vrd_dst_addr < 2 ^ 32
  end.

(** The entry [parse_binary_sequence] creates for a declaration. *)
Definition declared_entry (vrd_name : string) (vrd_size vrd_dst_addr : Z)
  : VrdInfo :=
  {| name := vrd_name; size := vrd_size; dst_addr := vrd_dst_addr;
     data := []; is_loaded := false |}.

(** The catalog after a command has been parsed. *)
Definition declare (vrd_map : gmap string VrdInfo) (c : command)
  : gmap string VrdInfo :=
  match c with
  | Opaque _ _ => vrd_map
  | Declaration vrd_name vrd_size vrd_dst_addr =>
      <[vrd_name := declared_entry vrd_name vrd_size vrd_dst_addr]> vrd_map
  end.

(** The DMA write generated for a loaded VRD. *)
Definition dma_write (vrd : VrdInfo) : list byte :=
  x04 :: uint32_le (vsize (data vrd) + 8) ++ uint32_le (dst_addr vrd) ++
  uint32_le (vsize (data vrd)) ++ data vrd.

(** What generation appends for a command. *)
Definition emitted (vrd_map : gmap string VrdInfo) (c : command) : list byte :=
  match c with
  | Opaque _ _ => wire_command c
  | Declaration vrd_name _ _ => from_option dma_write [] (vrd_map !! vrd_name)
  end.

(** The commands generation accepts: APB and DMA writes, and declarations
    of VRDs of the catalog. *)
Definition accepted (vrd_map : gmap string VrdInfo) (c : command) : Prop :=
  match c with
  | Opaque tag _ => tag = x01 ∨ tag = x04
  | Declaration vrd_name _ _ => is_Some (vrd_map !! vrd_name)
  end.

Definition passthrough (c : command) : Prop :=
  match c with
  | Opaque tag _ => tag = x01 ∨ tag = x04
  | Declaration _ _ _ => False
  end.

(** What generation appends for a run of commands. *)
Definition emitted_all (vrd_map : gmap string VrdInfo) (cs : list command)
  : list byte :=
  concat (map (emitted vrd_map) cs).

(** ** Vocabulary of the statements *)

(** The entry [vrd] once [new_data] has been loaded into it. *)
Definition with_data (vrd : VrdInfo) (new_data : list byte) : VrdInfo :=
  {| name := name vrd; size := size vrd; dst_addr := dst_addr vrd;
     data := new_data; is_loaded := true |}.

Definition with_entry (self : AppInitializer) (vrd_name : string) (vrd : VrdInfo)
  : AppInitializer :=
  {| binary_sequence_ := binary_sequence_ self;
     vrd_map_ := <[vrd_name := vrd]> (vrd_map_ self) |}.

Definition same_declaration (parsed current : VrdInfo) : Prop :=
  name current = name parsed ∧ size current = size parsed ∧
  dst_addr current = dst_addr parsed.

Definition data_fits (vrd : VrdInfo) : Prop :=
  is_loaded vrd = true → vsize (data vrd) = size vrd.

(** The catalog [current] holds the same declarations as the parsed catalog,
    and every loaded entry holds data of its declared size. *)
Definition catalog_invariant (parsed current : gmap string VrdInfo) : Prop :=
  ∀ k : string,
    match parsed !! k, current !! k with
    | Some vrd0, Some vrd => same_declaration vrd0 vrd ∧ data_fits vrd
    | None, None => True
    | _, _ => False
    end.

(** The commands generation can turn into output: APB and DMA writes, and
    declarations. *)
Definition generable (c : command) : Prop :=
  match c with
  | Opaque tag _ => tag = x01 ∨ tag = x04
  | Declaration _ _ _ => True
  end.

(** [c] declares the VRD [vrd_name]. *)
Definition declares (vrd_name : string) (c : command) : Prop :=
  match c with
  | Opaque _ _ => False
  | Declaration n _ _ => n = vrd_name
  end.

Definition all_loaded (self : AppInitializer) : Prop :=
  ∀ k vrd, vrd_map_ self !! k = Some vrd → is_loaded vrd = true.

(** [needle] occurs in [haystack] as a run of consecutive bytes. *)
Definition occurs_in (needle haystack : list byte) : Prop :=
  ∃ l1 l2, haystack = l1 ++ needle ++ l2.

(** A sequence of [k + 18] bytes: a VRD_INFO command of declared length 0,
    the bytes of a second VRD_INFO command of declared length 8, [k] zero
    bytes, and eight more zero bytes. *)
Definition short_declaration (k : nat) : list byte :=
  [x02; x00; x00; x00; x00; x02; x08; x00; x00; x00] ++ replicate k x00 ++
  [x00; x00; x00; x00; x00; x00; x00; x00].

(** The 2^32 - 8 bytes that follow the first header of [short_declaration]. *)
Definition declared_name (k : nat) : string :=
  string_of_list_byte
    (take (Z.to_nat (2 ^ 32 - 8)) (drop (Z.to_nat 5) (short_declaration k))).

(** The commands of [sample_sequence]. *)
Definition sample_apb_write : command :=
  Opaque x01 [x00; x10; x00; x00; x78; x56; x34; x12].

Definition sample_declaration : command := Declaration "test_vrd" 16 8192.

Definition sample_dma_write : command :=
  Opaque x04 [x00; x30; x00; x00; x04; x00; x00; x00; xaa; xbb; xcc; xdd].

(** The object [main] holds after the constructor. *)
Definition sample_initializer : AppInitializer :=
  {| binary_sequence_ := sample_sequence;
     vrd_map_ := {["test_vrd"%string := declared_entry "test_vrd" 16 8192]} |}.

(** The names declared by a list of commands, in order. *)
Definition declared_names (cs : list command) : list string :=
  omap (λ c, match c with
             | Opaque _ _ => None
             | Declaration vrd_name _ _ => Some vrd_name
             end) cs.

(** The command generation writes for a command: a declaration of a VRD of
    the catalog becomes a DMA write of its data. *)
Definition generated_command (vrd_map : gmap string VrdInfo) (c : command)
  : command :=
  match c with
  | Opaque _ _ => c
  | Declaration vrd_name _ _ =>
      match vrd_map !! vrd_name with
      | Some vrd =>
          Opaque x04 (uint32_le (dst_addr vrd) ++ uint32_le (vsize (data vrd)) ++
                      data vrd)
      | None => c
      end
  end.

(** The tag and the declared length at [pos], when both can be read. *)
Definition header_at (v : list byte) (pos : Z) : list (byte * Z) :=
  match at_index v pos, read_uint32 v (wrap64 (pos + 1)) with
  | Ok tag, Ok length => [(tag, length)]
  | _, _ => []
  end.

(** The headers of the commands [parse_loop] goes through: the loop of
    [parse_binary_sequence] again, recording the tag and the declared length
    of every command it completes. *)
Fixpoint parsed_headers (fuel : nat) (binary_sequence : list byte) (pos : Z)
  (vrd_map : gmap string VrdInfo) : list (byte * Z) :=
  if pos <? vsize binary_sequence then
    match fuel with
    | O => []
    | S fuel =>
        match parse_command binary_sequence pos vrd_map with
        | Ok (pos', vrd_map') =>
            header_at binary_sequence pos ++
            parsed_headers fuel binary_sequence pos' vrd_map'
        | _ => []
        end
    end
  else [].

(** A header that is not a VRD_INFO header of declared length below 8. *)
Definition long_declaration (header : byte * Z) : Prop :=
  header.1 = x02 → 8 ≤ header.2.

(** The header of a command on the wire. *)
Definition header_of (c : command) : byte * Z :=
  match c with
  | Opaque tag body => (tag, vsize body)
  | Declaration vrd_name _ _ => (x02, vsize (list_byte_of_string vrd_name) + 8)
  end.

(** * Properties *)

(** ** Bytes and fixed-width integers *)

Lemma of_uint8_range (b : byte) : 0 ≤ of_uint8 b < 256.
Proof.
  unfold of_uint8. pose proof (Byte.to_N_bounded b). lia.
Qed.

Lemma of_to_uint8 (z : Z) : of_uint8 (to_uint8 z) = z mod 256.
Proof.
  unfold of_uint8, to_uint8.
  assert (Hr : 0 ≤ z mod 256 < 256) by (apply Z.mod_pos_bound; lia).
  destruct (Byte.of_N (Z.to_N (z mod 256))) as [b|] eqn:E; simpl.
  - apply Byte.to_of_N in E. rewrite E. lia.
  - apply Byte.of_N_None_iff in E. lia.
Qed.

Lemma to_of_uint8 (b : byte) : to_uint8 (of_uint8 b) = b.
Proof.
  unfold to_uint8. rewrite Z.mod_small by apply of_uint8_range.
  unfold of_uint8. rewrite N2Z.id, Byte.of_to_N. reflexivity.
Qed.

Lemma wrap64_small (z : Z) : 0 ≤ z < 2 ^ 64 → wrap64 z = z.
Proof. apply Z.mod_small. Qed.

Lemma wrap32_small (z : Z) : 0 ≤ z < 2 ^ 32 → wrap32 z = z.
Proof. apply Z.mod_small. Qed.

Lemma wrap32_range (z : Z) : 0 ≤ wrap32 z < 2 ^ 32.
Proof. apply Z.mod_pos_bound. lia. Qed.

Lemma wrap32_wrap64 (z : Z) : wrap32 (wrap64 z) = wrap32 z.
Proof.
  unfold wrap32, wrap64. apply Z.mod_mod_divide.
  exists (2 ^ 32). reflexivity.
Qed.

Lemma append_uint32_le (vec : list byte) (value : Z) :
  append_uint32 vec value = vec ++ uint32_le value.
Proof. reflexivity. Qed.

Lemma testbit_mod256 (z : Z) (n : Z) :
  0 ≤ n → Z.testbit (z mod 256) n = (n <? 8) && Z.testbit z n.
Proof.
  intros Hn. change 256 with (2 ^ 8).
  destruct (Z.ltb_spec n 8).
  - rewrite Z.mod_pow2_bits_low by lia. reflexivity.
  - rewrite Z.mod_pow2_bits_high by lia. reflexivity.
Qed.

(** Reassembling the four bytes gives the value back, reduced to 32 bits. *)
Lemma lor_bytes (x : Z) :
  Z.lor (Z.lor (Z.lor (x mod 256)
                      (Z.shiftl (Z.shiftr x 8 mod 256) 8))
               (Z.shiftl (Z.shiftr x 16 mod 256) 16))
        (Z.shiftl (Z.shiftr x 24 mod 256) 24) = wrap32 x.
Proof.
  unfold wrap32. apply Z.bits_inj'. intros n Hn.
  rewrite !Z.lor_spec, !Z.shiftl_spec by lia.
  rewrite testbit_mod256 by lia.
  destruct (Z.ltb_spec n 32) as [H32|H32].
  - rewrite Z.mod_pow2_bits_low by lia.
    destruct (Z.ltb_spec n 8) as [H8|H8]; simpl.
    { rewrite !(Z.testbit_neg_r _ (n - _)) by lia. rewrite !orb_false_r. reflexivity. }
    destruct (Z.ltb_spec n 16) as [H16|H16].
    { rewrite testbit_mod256, Z.shiftr_spec by lia.
      rewrite !(Z.testbit_neg_r _ (n - _)) by lia.
      replace (n - 8 <? 8) with true by lia.
      rewrite !orb_false_r. simpl. f_equal. lia. }
    destruct (Z.ltb_spec n 24) as [H24|H24].
    { rewrite !testbit_mod256, !Z.shiftr_spec by lia.
      rewrite !(Z.testbit_neg_r _ (n - _)) by lia.
      replace (n - 8 <? 8) with false by lia.
      replace (n - 16 <? 8) with true by lia.
      rewrite !orb_false_r. simpl. f_equal. lia. }
    rewrite !testbit_mod256, !Z.shiftr_spec by lia.
    replace (n - 8 <? 8) with false by lia.
    replace (n - 16 <? 8) with false by lia.
    replace (n - 24 <? 8) with true by lia.
    simpl. f_equal. lia.
  - rewrite Z.mod_pow2_bits_high by lia.
    rewrite !testbit_mod256, !Z.shiftr_spec by lia.
    replace (n <? 8) with false by lia.
    replace (n - 8 <? 8) with false by lia.
    replace (n - 16 <? 8) with false by lia.
    replace (n - 24 <? 8) with false by lia.
    reflexivity.
Qed.

(** ** Vector accesses over a known layout *)

Lemma vsize_app (a b : list byte) : vsize (a ++ b) = vsize a + vsize b.
Proof. unfold vsize. rewrite length_app. lia. Qed.

Lemma vsize_cons (x : byte) (a : list byte) : vsize (x :: a) = 1 + vsize a.
Proof. unfold vsize. simpl. lia. Qed.

Lemma vsize_nil : vsize [] = 0.
Proof. reflexivity. Qed.

Lemma vsize_nonneg (a : list byte) : 0 ≤ vsize a.
Proof. unfold vsize. lia. Qed.

Lemma vsize_uint32_le (x : Z) : vsize (uint32_le x) = 4.
Proof. reflexivity. Qed.

(** Proof steps that recur: exact fixed-width arithmetic, list layouts,
    sizes, and one step of the outcome monad. *)
Ltac unwrap :=
  repeat match goal with
         | |- context [wrap64 ?z] => rewrite (wrap64_small z) by lia
         | |- context [wrap32 ?z] => rewrite (wrap32_small z) by lia
         end.

Ltac layout :=
  subst; repeat (cbn [app]; rewrite <- ?app_assoc); reflexivity.

Ltac sizes :=
  repeat first [rewrite vsize_app | rewrite vsize_cons | rewrite vsize_uint32_le
               | rewrite vsize_nil];
  lia.

Ltac step := cbn [mbind outcome_bind].

Lemma at_index_layout (v pre post : list byte) (b : byte) (pos : Z) :
  v = pre ++ b :: post → pos = vsize pre → at_index v pos = Ok b.
Proof.
  intros -> ->. unfold at_index.
  rewrite vsize_app, vsize_cons.
  pose proof (vsize_nonneg post).
  replace (vsize pre <? vsize pre + (1 + vsize post)) with true by lia.
  unfold vsize. rewrite Nat2Z.id, list_lookup_middle by reflexivity.
  reflexivity.
Qed.

Lemma at_index_outside (v : list byte) (pos : Z) :
  vsize v ≤ pos → at_index v pos = Undefined.
Proof.
  intros ?. unfold at_index.
  replace (pos <? vsize v) with false by lia. reflexivity.
Qed.

Lemma read_uint32_layout (v pre post : list byte) (x pos : Z) :
  v = pre ++ uint32_le x ++ post → pos = vsize pre → vsize v < 2 ^ 63 →
  read_uint32 v pos = Ok (wrap32 x).
Proof.
  intros Hv -> Hsz. unfold read_uint32.
  assert (Hb : 0 ≤ vsize pre ∧ vsize pre + 4 ≤ vsize v).
  { subst v. rewrite !vsize_app, vsize_uint32_le.
    pose proof (vsize_nonneg pre). pose proof (vsize_nonneg post). lia. }
  rewrite !wrap64_small by lia.
  assert (H0 : at_index v (vsize pre) = Ok (to_uint8 x)).
  { eapply at_index_layout; [exact Hv|reflexivity]. }
  assert (H1 : at_index v (vsize pre + 1) = Ok (to_uint8 (Z.shiftr x 8))).
  { eapply (at_index_layout v (pre ++ [to_uint8 x]));
      [subst v; rewrite <- app_assoc; reflexivity
      |rewrite vsize_app, vsize_cons, vsize_nil; lia]. }
  assert (H2 : at_index v (vsize pre + 2) = Ok (to_uint8 (Z.shiftr x 16))).
  { eapply (at_index_layout v (pre ++ [to_uint8 x; to_uint8 (Z.shiftr x 8)]));
      [subst v; rewrite <- app_assoc; reflexivity
      |rewrite vsize_app, !vsize_cons, vsize_nil; lia]. }
  assert (H3 : at_index v (vsize pre + 3) = Ok (to_uint8 (Z.shiftr x 24))).
  { eapply (at_index_layout v
              (pre ++ [to_uint8 x; to_uint8 (Z.shiftr x 8); to_uint8 (Z.shiftr x 16)]));
      [subst v; rewrite <- app_assoc; reflexivity
      |rewrite vsize_app, !vsize_cons, vsize_nil; lia]. }
  rewrite H0, H1, H2, H3.
  simpl. rewrite !of_to_uint8, lor_bytes. reflexivity.
Qed.

Lemma lor_le_add (a b : Z) : 0 ≤ a → 0 ≤ b → 0 ≤ Z.lor a b ≤ a + b.
Proof.
  intros Ha Hb. pose proof (Z.add_lor_land a b).
  pose proof (proj2 (Z.land_nonneg a b) (or_introl Ha)).
  pose proof (proj2 (Z.lor_nonneg a b) (conj Ha Hb)). lia.
Qed.

Lemma read_uint32_range (v : list byte) (pos x : Z) :
  read_uint32 v pos = Ok x → 0 ≤ x < 2 ^ 32.
Proof.
  unfold read_uint32.
  destruct (at_index v pos) as [b0| | |]; simpl; try discriminate.
  destruct (at_index v (wrap64 (pos + 1))) as [b1| | |]; simpl; try discriminate.
  destruct (at_index v (wrap64 (pos + 2))) as [b2| | |]; simpl; try discriminate.
  destruct (at_index v (wrap64 (pos + 3))) as [b3| | |]; simpl; try discriminate.
  intros [= <-].
  pose proof (of_uint8_range b0). pose proof (of_uint8_range b1).
  pose proof (of_uint8_range b2). pose proof (of_uint8_range b3).
  rewrite !Z.shiftl_mul_pow2 by lia.
  change (2 ^ 8) with 256. change (2 ^ 16) with 65536. change (2 ^ 24) with 16777216.
  pose proof (lor_le_add (of_uint8 b0) (of_uint8 b1 * 256)).
  pose proof (lor_le_add (Z.lor (of_uint8 b0) (of_uint8 b1 * 256))
                         (of_uint8 b2 * 65536)).
  pose proof (lor_le_add (Z.lor (Z.lor (of_uint8 b0) (of_uint8 b1 * 256))
                                (of_uint8 b2 * 65536))
                         (of_uint8 b3 * 16777216)).
  change (2 ^ 32) with 4294967296. lia.
Qed.

Lemma string_at_layout (v pre w post : list byte) (pos n : Z) :
  v = pre ++ w ++ post → pos = vsize pre → n = vsize w →
  0 < vsize w + vsize post →
  string_at v pos n = Ok (string_of_list_byte w).
Proof.
  intros -> -> -> Hne. unfold string_at.
  rewrite !vsize_app.
  pose proof (vsize_nonneg post). pose proof (vsize_nonneg w).
  replace (vsize pre <? vsize pre + (vsize w + vsize post)) with true by lia.
  replace (vsize pre + vsize w <=? vsize pre + (vsize w + vsize post)) with true by lia.
  unfold vsize. rewrite !Nat2Z.id, drop_app_length, take_app_length.
  reflexivity.
Qed.

Lemma copy_bytes_layout (v dest pre w post : list byte) (pos n : Z) :
  v = pre ++ w ++ post → pos = vsize pre → n = vsize w →
  copy_bytes v dest pos n = Ok (dest ++ w).
Proof.
  intros -> -> ->. unfold copy_bytes.
  rewrite !vsize_app. pose proof (vsize_nonneg post).
  replace (vsize pre + vsize w <=? vsize pre + (vsize w + vsize post)) with true by lia.
  unfold vsize. rewrite !Nat2Z.id, drop_app_length, take_app_length.
  reflexivity.
Qed.

Lemma CommandType_of_byte_VRD_INFO (b : byte) :
  CommandType_of_byte b = VRD_INFO → b = x02.
Proof. destruct b; simpl; intros E; first [reflexivity | discriminate E]. Qed.

Lemma CommandType_to_of_byte (b : byte) :
  CommandType_to_byte (CommandType_of_byte b) = b.
Proof. destruct b; reflexivity. Qed.

Lemma vsize_wire_command (c : command) :
  vsize (wire_command c) =
  match c with
  | Opaque _ body => 5 + vsize body
  | Declaration vrd_name _ _ => 5 + vsize (list_byte_of_string vrd_name) + 8
  end.
Proof.
  destruct c; cbn [wire_command];
    rewrite vsize_cons, !vsize_app, !vsize_uint32_le; lia.
Qed.

Lemma wire_command_min (c : command) : 5 ≤ vsize (wire_command c).
Proof.
  rewrite vsize_wire_command. destruct c.
  - pose proof (vsize_nonneg body). lia.
  - pose proof (vsize_nonneg (list_byte_of_string vrd_name)). lia.
Qed.

Lemma wire_cons (c : command) (cs : list command) :
  wire (c :: cs) = wire_command c ++ wire cs.
Proof. reflexivity. Qed.

Lemma wire_app (cs1 cs2 : list command) : wire (cs1 ++ cs2) = wire cs1 ++ wire cs2.
Proof. unfold wire. rewrite map_app, concat_app. reflexivity. Qed.

Lemma wire_length (cs : list command) : Z.of_nat (length cs) ≤ vsize (wire cs).
Proof.
  induction cs as [|c cs IH]; [reflexivity|].
  rewrite wire_cons, vsize_app. pose proof (wire_command_min c).
  simpl length. lia.
Qed.

(** [uint32_le] only looks at the low 32 bits. *)
Lemma to_uint8_shiftr_wrap32 (x k : Z) :
  0 ≤ k ≤ 24 → to_uint8 (Z.shiftr (wrap32 x) k) = to_uint8 (Z.shiftr x k).
Proof.
  intros Hk. unfold to_uint8. do 3 f_equal.
  apply Z.bits_inj'. intros n Hn.
  rewrite !testbit_mod256, !Z.shiftr_spec by lia.
  destruct (Z.ltb_spec n 8); [|reflexivity]. simpl.
  unfold wrap32. rewrite Z.mod_pow2_bits_low by lia. reflexivity.
Qed.

Lemma uint32_le_wrap32 (x : Z) : uint32_le (wrap32 x) = uint32_le x.
Proof.
  unfold uint32_le.
  rewrite <- (Z.shiftr_0_r (wrap32 x)) at 1. rewrite <- (Z.shiftr_0_r x) at 1.
  rewrite !to_uint8_shiftr_wrap32 by lia. reflexivity.
Qed.

(** ** One command, parsed and generated *)

Lemma parse_command_wire (v pre post : list byte) (c : command)
  (vrd_map : gmap string VrdInfo) :
  v = pre ++ wire_command c ++ post → well_formed c → vsize v < 2 ^ 63 →
  parse_command v (vsize pre) vrd_map =
    Ok (vsize pre + vsize (wire_command c), declare vrd_map c).
Proof.
  intros Hv Hwf Hsz.
  pose proof (vsize_nonneg pre) as Hpre. pose proof (vsize_nonneg post) as Hpost.
  assert (Hlen : vsize v = vsize pre + vsize (wire_command c) + vsize post).
  { subst v. rewrite !vsize_app. lia. }
  rewrite vsize_wire_command in *.
  unfold parse_command.
  destruct c as [tag body | vrd_name vrd_size vrd_dst_addr]; cbn [wire_command] in Hv.
  - destruct Hwf as [Htag Hbody]. pose proof (vsize_nonneg body).
    rewrite (at_index_layout v pre (uint32_le (vsize body) ++ body ++ post) tag)
      by first [reflexivity | layout].
    step. unwrap.
    rewrite (read_uint32_layout v (pre ++ [tag]) (body ++ post) (vsize body));
      [|layout|sizes|assumption].
    step. unwrap.
    destruct (CommandType_of_byte tag) eqn:E;
      try (f_equal; f_equal; lia).
    apply CommandType_of_byte_VRD_INFO in E. contradiction.
  - destruct Hwf as (Hn & Hs & Hd).
    remember (list_byte_of_string vrd_name) as nm eqn:Hnm.
    pose proof (vsize_nonneg nm).
    rewrite (at_index_layout v pre
               (uint32_le (vsize nm + 8) ++ nm ++ uint32_le vrd_size ++
                uint32_le vrd_dst_addr ++ post) x02)
      by first [reflexivity | layout].
    cbn [mbind outcome_bind CommandType_of_byte]. unwrap.
    rewrite (read_uint32_layout v (pre ++ [x02])
               (nm ++ uint32_le vrd_size ++ uint32_le vrd_dst_addr ++ post)
               (vsize nm + 8));
      [|layout|sizes|assumption].
    step. unwrap.
    replace (vsize nm + 8 - 8) with (vsize nm) by lia.
    rewrite (string_at_layout v (pre ++ x02 :: uint32_le (vsize nm + 8)) nm
               (uint32_le vrd_size ++ uint32_le vrd_dst_addr ++ post));
      [|layout|sizes|reflexivity|sizes].
    step.
    rewrite (read_uint32_layout v (pre ++ x02 :: uint32_le (vsize nm + 8) ++ nm)
               (uint32_le vrd_dst_addr ++ post) vrd_size
               (vsize pre + 1 + 4 + vsize nm));
      [|layout|sizes|assumption].
    step.
    rewrite (read_uint32_layout v
               (pre ++ x02 :: uint32_le (vsize nm + 8) ++ nm ++ uint32_le vrd_size)
               post vrd_dst_addr (vsize pre + 1 + 4 + vsize nm + 4));
      [|layout|sizes|assumption].
    step. unwrap.
    subst nm. rewrite string_of_list_byte_of_string.
    cbn [declare]. f_equal. f_equal. lia.
Qed.

Lemma generate_command_wire (v pre post : list byte) (c : command)
  (vrd_map : gmap string VrdInfo) (init_sequence : list byte) :
  v = pre ++ wire_command c ++ post → well_formed c → vsize v < 2 ^ 63 →
  accepted vrd_map c →
  generate_command v vrd_map (vsize pre) init_sequence =
    Ok (vsize pre + vsize (wire_command c), init_sequence ++ emitted vrd_map c).
Proof.
  intros Hv Hwf Hsz Hacc.
  pose proof (vsize_nonneg pre) as Hpre. pose proof (vsize_nonneg post) as Hpost.
  assert (Hlen : vsize v = vsize pre + vsize (wire_command c) + vsize post).
  { subst v. rewrite !vsize_app. lia. }
  rewrite vsize_wire_command in *.
  unfold generate_command.
  destruct c as [tag body | vrd_name vrd_size vrd_dst_addr];
    cbn [wire_command accepted emitted] in *.
  - destruct Hwf as [Htag Hbody]. pose proof (vsize_nonneg body).
    rewrite (at_index_layout v pre (uint32_le (vsize body) ++ body ++ post) tag)
      by first [reflexivity | layout].
    step. unwrap.
    rewrite (read_uint32_layout v (pre ++ [tag]) (body ++ post) (vsize body));
      [|layout|sizes|assumption].
    step. unwrap.
    assert (Hcopy : ∀ dest, copy_bytes v dest (vsize pre + 1 + 4) (vsize body)
                            = Ok (dest ++ body)).
    { intros dest.
      apply (copy_bytes_layout v dest (pre ++ tag :: uint32_le (vsize body)) body post);
        [layout|sizes|reflexivity]. }
    destruct Hacc as [-> | ->]; cbn [CommandType_of_byte CommandType_to_byte];
      rewrite append_uint32_le, Hcopy; step;
      rewrite <- !app_assoc; do 2 f_equal; lia.
  - destruct Hwf as (Hn & Hs & Hd). destruct Hacc as [vrd Hvrd].
    remember (list_byte_of_string vrd_name) as nm eqn:Hnm.
    pose proof (vsize_nonneg nm).
    rewrite (at_index_layout v pre
               (uint32_le (vsize nm + 8) ++ nm ++ uint32_le vrd_size ++
                uint32_le vrd_dst_addr ++ post) x02)
      by first [reflexivity | layout].
    cbn [mbind outcome_bind CommandType_of_byte]. unwrap.
    rewrite (read_uint32_layout v (pre ++ [x02])
               (nm ++ uint32_le vrd_size ++ uint32_le vrd_dst_addr ++ post)
               (vsize nm + 8));
      [|layout|sizes|assumption].
    step. unwrap.
    replace (vsize nm + 8 - 8) with (vsize nm) by lia.
    rewrite (string_at_layout v (pre ++ x02 :: uint32_le (vsize nm + 8)) nm
               (uint32_le vrd_size ++ uint32_le vrd_dst_addr ++ post));
      [|layout|sizes|reflexivity|sizes].
    step. subst nm. rewrite string_of_list_byte_of_string.
    unfold map_at. rewrite Hvrd. cbn [from_option]. step.
    rewrite !append_uint32_le, wrap32_wrap64, !uint32_le_wrap32.
    cbn [CommandType_to_byte]. unfold dma_write.
    rewrite <- !app_assoc. do 2 f_equal. lia.
Qed.

Lemma parse_loop_end (fuel : nat) (v : list byte) (pos : Z)
  (vrd_map : gmap string VrdInfo) :
  vsize v ≤ pos → parse_loop fuel v pos vrd_map = Ok vrd_map.
Proof.
  intros Hpos. destruct fuel; simpl;
    replace (pos <? vsize v) with false by lia; reflexivity.
Qed.

Lemma parse_loop_step (fuel : nat) (v : list byte) (pos : Z)
  (vrd_map : gmap string VrdInfo) :
  pos < vsize v →
  parse_loop (S fuel) v pos vrd_map =
    parse_command v pos vrd_map ≫= λ '(pos, vrd_map), parse_loop fuel v pos vrd_map.
Proof.
  intros Hpos. simpl. replace (pos <? vsize v) with true by lia. reflexivity.
Qed.

Lemma parse_loop_prefix (cs : list command) :
  ∀ (fuel : nat) (v pre post : list byte) (vrd_map : gmap string VrdInfo),
    v = pre ++ wire cs ++ post → Forall well_formed cs → vsize v < 2 ^ 63 →
    (length cs ≤ fuel)%nat →
    parse_loop fuel v (vsize pre) vrd_map =
      parse_loop (fuel - length cs) v (vsize pre + vsize (wire cs))
                 (foldl declare vrd_map cs).
Proof.
  induction cs as [|c cs IH]; intros fuel v pre post vrd_map Hv Hwf Hsz Hfuel.
  - cbn [wire map concat foldl length]. rewrite vsize_nil, Z.add_0_r, Nat.sub_0_r.
    reflexivity.
  - apply Forall_cons in Hwf as [Hc Hcs].
    destruct fuel as [|fuel]; [simpl in Hfuel; lia|].
    rewrite wire_cons in Hv. rewrite <- app_assoc in Hv.
    pose proof (wire_command_min c) as Hmin.
    rewrite parse_loop_step.
    2:{ subst v. rewrite !vsize_app.
        pose proof (vsize_nonneg (wire cs)). pose proof (vsize_nonneg post). lia. }
    rewrite (parse_command_wire v pre (wire cs ++ post) c) by assumption.
    step.
    rewrite <- vsize_app.
    rewrite (IH fuel v (pre ++ wire_command c) post);
      [|layout|assumption|assumption|simpl in Hfuel; lia].
    cbn [foldl length]. rewrite wire_cons, !vsize_app, Z.add_assoc.
    reflexivity.
Qed.

Lemma generate_loop_end (fuel : nat) (v : list byte) (vrd_map : gmap string VrdInfo)
  (pos : Z) (init_sequence : list byte) :
  vsize v ≤ pos → generate_loop fuel v vrd_map pos init_sequence = Ok init_sequence.
Proof.
  intros Hpos. destruct fuel; simpl;
    replace (pos <? vsize v) with false by lia; reflexivity.
Qed.

Lemma generate_loop_step (fuel : nat) (v : list byte) (vrd_map : gmap string VrdInfo)
  (pos : Z) (init_sequence : list byte) :
  pos < vsize v →
  generate_loop (S fuel) v vrd_map pos init_sequence =
    generate_command v vrd_map pos init_sequence ≫=
      λ '(pos, init_sequence), generate_loop fuel v vrd_map pos init_sequence.
Proof.
  intros Hpos. simpl. replace (pos <? vsize v) with true by lia. reflexivity.
Qed.

Lemma generate_loop_prefix (cs : list command) :
  ∀ (fuel : nat) (v pre post : list byte) (vrd_map : gmap string VrdInfo)
    (init_sequence : list byte),
    v = pre ++ wire cs ++ post → Forall well_formed cs → vsize v < 2 ^ 63 →
    Forall (accepted vrd_map) cs → (length cs ≤ fuel)%nat →
    generate_loop fuel v vrd_map (vsize pre) init_sequence =
      generate_loop (fuel - length cs) v vrd_map (vsize pre + vsize (wire cs))
                    (init_sequence ++ emitted_all vrd_map cs).
Proof.
  induction cs as [|c cs IH];
    intros fuel v pre post vrd_map init_sequence Hv Hwf Hsz Hacc Hfuel.
  - cbn [wire emitted_all map concat length].
    rewrite vsize_nil, Z.add_0_r, Nat.sub_0_r, app_nil_r. reflexivity.
  - apply Forall_cons in Hwf as [Hc Hcs]. apply Forall_cons in Hacc as [Ha Hacc].
    destruct fuel as [|fuel]; [simpl in Hfuel; lia|].
    rewrite wire_cons in Hv. rewrite <- app_assoc in Hv.
    pose proof (wire_command_min c) as Hmin.
    rewrite generate_loop_step.
    2:{ subst v. rewrite !vsize_app.
        pose proof (vsize_nonneg (wire cs)). pose proof (vsize_nonneg post). lia. }
    rewrite (generate_command_wire v pre (wire cs ++ post) c) by assumption.
    step.
    rewrite <- vsize_app.
    rewrite (IH fuel v (pre ++ wire_command c) post);
      [|layout|assumption|assumption|assumption|simpl in Hfuel; lia].
    cbn [length]. rewrite wire_cons, !vsize_app, Z.add_assoc.
    unfold emitted_all. cbn [map concat]. rewrite <- app_assoc.
    reflexivity.
Qed.

(** ** load_vrd_data, the traversal and the catalog invariant *)

Lemma load_vrd_data_mismatch (self : AppInitializer) (vrd_name : string)
  (vrd : VrdInfo) (new_data : list byte) :
  vrd_map_ self !! vrd_name = Some vrd → vsize new_data ≠ size vrd →
  load_vrd_data vrd_name new_data self =
    (Throw (VrdSizeMismatch vrd_name (size vrd) (vsize new_data)), self).
Proof.
  intros Hvrd Hne. unfold load_vrd_data. rewrite Hvrd.
  rewrite bool_decide_eq_true_2 by assumption. reflexivity.
Qed.

Lemma load_vrd_data_match (self : AppInitializer) (vrd_name : string)
  (vrd : VrdInfo) (new_data : list byte) :
  vrd_map_ self !! vrd_name = Some vrd → vsize new_data = size vrd →
  load_vrd_data vrd_name new_data self =
    (Ok (), with_entry self vrd_name (with_data vrd new_data)).
Proof.
  intros Hvrd Heq. unfold load_vrd_data. rewrite Hvrd.
  rewrite bool_decide_eq_false_2 by (intros Hne; apply Hne, Heq). reflexivity.
Qed.

Lemma load_vrd_data_not_found (self : AppInitializer) (vrd_name : string)
  (new_data : list byte) :
  vrd_map_ self !! vrd_name = None →
  load_vrd_data vrd_name new_data self = (Throw (VrdNotFound vrd_name), self).
Proof. intros Hvrd. unfold load_vrd_data. rewrite Hvrd. reflexivity. Qed.

(** C5.  For a catalog entry [vrd] of declared size [size vrd]: loading data
    of another length throws the size-mismatch error and leaves the object,
    and so the entry, as it was; loading data of exactly that length returns,
    and the entry then holds the data and is marked loaded; loading again with
    data of that length returns too, replaces the data and keeps the entry
    loaded. *)
Theorem load_vrd_data_size_check (self : AppInitializer) (vrd_name : string)
  (vrd : VrdInfo) (new_data : list byte) :
  vrd_map_ self !! vrd_name = Some vrd →
  (vsize new_data ≠ size vrd →
   load_vrd_data vrd_name new_data self =
     (Throw (VrdSizeMismatch vrd_name (size vrd) (vsize new_data)), self)) ∧
  (vsize new_data = size vrd →
   ∃ self',
     load_vrd_data vrd_name new_data self = (Ok (), self') ∧
     vrd_map_ self' !! vrd_name = Some (with_data vrd new_data) ∧
     ∀ again : list byte, vsize again = size vrd →
       ∃ self'',
         load_vrd_data vrd_name again self' = (Ok (), self'') ∧
         vrd_map_ self'' !! vrd_name = Some (with_data vrd again)).
Proof.
  intros Hvrd. split.
  - apply load_vrd_data_mismatch, Hvrd.
  - intros Heq. eexists. split; [apply (load_vrd_data_match _ _ vrd); assumption|].
    split; [apply lookup_insert_eq|].
    intros again Hagain. eexists.
    split.
    + apply (load_vrd_data_match _ _ (with_data vrd new_data));
        [apply lookup_insert_eq | exact Hagain].
    + cbn [with_entry vrd_map_]. rewrite lookup_insert_eq. reflexivity.
Qed.

(** C10.  A call of [load_vrd_data] that returns changes only the data and
    the loaded flag of the entry it names: the binary sequence, the set of
    names of the catalog, every entry under another name, and the name, size
    and destination address of the entry itself are as before. *)
Theorem load_vrd_data_frame (self self' : AppInitializer) (vrd_name : string)
  (new_data : list byte) :
  load_vrd_data vrd_name new_data self = (Ok (), self') →
  binary_sequence_ self' = binary_sequence_ self ∧
  dom (vrd_map_ self') = dom (vrd_map_ self) ∧
  (∀ other : string, other ≠ vrd_name →
     vrd_map_ self' !! other = vrd_map_ self !! other) ∧
  ∃ vrd vrd' : VrdInfo,
    vrd_map_ self !! vrd_name = Some vrd ∧
    vrd_map_ self' !! vrd_name = Some vrd' ∧
    name vrd' = name vrd ∧ size vrd' = size vrd ∧ dst_addr vrd' = dst_addr vrd.
Proof.
  unfold load_vrd_data.
  destruct (vrd_map_ self !! vrd_name) as [vrd|] eqn:Hvrd; [|discriminate].
  destruct (bool_decide (vsize new_data ≠ size vrd)); [discriminate|].
  intros [= <-]. cbn [binary_sequence_ vrd_map_].
  split; [reflexivity|]. split.
  - apply dom_insert_lookup_L. eauto.
  - split.
    + intros other Hne. apply lookup_insert_ne. congruence.
    + exists vrd. eexists. split; [reflexivity|].
      split; [apply lookup_insert_eq|]. simpl. auto.
Qed.

Section Unloaded.
Context `{Traversal}.

Lemma first_not_loaded_None (vrd_map : gmap string VrdInfo) :
  first_not_loaded vrd_map = None ↔
  ∀ k vrd, vrd_map !! k = Some vrd → is_loaded vrd = true.
Proof.
  unfold first_not_loaded. split.
  - intros Hnone k vrd Hk.
    apply elem_of_map_to_list in Hk. rewrite <- traverse_perm in Hk.
    apply list_elem_of_In in Hk.
    pose proof (List.find_none _ _ Hnone _ Hk) as Hf. simpl in Hf.
    destruct (is_loaded vrd); [reflexivity|discriminate].
  - intros Hall.
    destruct (List.find _ _) as [[k vrd]|] eqn:Hf; [|reflexivity].
    apply List.find_some in Hf as [Hin Hneg]. simpl in Hneg.
    apply list_elem_of_In in Hin. rewrite traverse_perm in Hin.
    apply elem_of_map_to_list in Hin. rewrite (Hall _ _ Hin) in Hneg.
    discriminate.
Qed.

Lemma find_first {A : Type} (f : A → bool) (l : list A) (x : A) :
  List.find f l = Some x →
  ∃ before after, l = before ++ x :: after ∧
                  Forall (λ y, f y = false) before ∧ f x = true.
Proof.
  induction l as [|a l IH]; simpl; [discriminate|].
  destruct (f a) eqn:Ha.
  - intros [= ->]. exists [], l. auto.
  - intros Hf. destruct (IH Hf) as (before & after & -> & Hb & Hx).
    exists (a :: before), after. auto.
Qed.

(** C4.  When some catalog entry is not loaded, [generate_init_sequence]
    throws the not-loaded error naming the first entry of the traversal that
    is not loaded (every entry before it in the traversal is loaded).  The
    outcome is the exception alone, with no output, and it does not depend on
    the binary sequence: the check precedes the generation loop. *)
Theorem generate_init_sequence_unloaded (self : AppInitializer) :
  (∃ k vrd, vrd_map_ self !! k = Some vrd ∧ is_loaded vrd = false) →
  ∃ before k vrd after,
    traverse (vrd_map_ self) = before ++ (k, vrd) :: after ∧
    Forall (λ vrd_pair, is_loaded vrd_pair.2 = true) before ∧
    is_loaded vrd = false ∧
    generate_init_sequence self = Throw (VrdNotLoaded k).
Proof.
  intros (k0 & vrd0 & Hk0 & Hun).
  unfold generate_init_sequence.
  destruct (first_not_loaded (vrd_map_ self)) as [[k vrd]|] eqn:Hf.
  - unfold first_not_loaded in Hf.
    apply find_first in Hf as (before & after & Htr & Hb & Hx).
    exists before, k, vrd, after. simpl in Hx.
    split; [exact Htr|]. split; [|split].
    + eapply Forall_impl; [exact Hb|]. intros [k' v'] Hv'. simpl in *.
      destruct (is_loaded v'); [reflexivity|discriminate].
    + destruct (is_loaded vrd); [discriminate|reflexivity].
    + reflexivity.
  - rewrite first_not_loaded_None in Hf. rewrite (Hf _ _ Hk0) in Hun.
    discriminate.
Qed.
End Unloaded.

Lemma parse_command_catalog (v : list byte) (pos pos' : Z)
  (vrd_map vrd_map' : gmap string VrdInfo) :
  parse_command v pos vrd_map = Ok (pos', vrd_map') →
  vrd_map' = vrd_map ∨
  ∃ n s d, vrd_map' = <[n := declared_entry n s d]> vrd_map.
Proof.
  unfold parse_command.
  destruct (at_index v pos) as [tag| | |]; cbn [mbind outcome_bind]; try discriminate.
  destruct (read_uint32 v _) as [len| | |]; cbn [mbind outcome_bind]; try discriminate.
  destruct (CommandType_of_byte tag); try (intros [= _ <-]; left; reflexivity).
  destruct (string_at v _ _) as [n| | |]; cbn [mbind outcome_bind]; try discriminate.
  destruct (read_uint32 v (wrap64 (wrap64 _ + wrap32 _))) as [s| | |];
    cbn [mbind outcome_bind]; try discriminate.
  destruct (read_uint32 v _) as [d| | |]; cbn [mbind outcome_bind]; try discriminate.
  intros [= _ <-]. right. exists n, s, d. reflexivity.
Qed.

(** Induction over the catalogs a parse goes through. *)
Lemma parse_loop_catalog (P : gmap string VrdInfo → Prop) :
  (∀ m n s d, P m → P (<[n := declared_entry n s d]> m)) →
  ∀ (fuel : nat) (v : list byte) (pos : Z) (vrd_map vrd_map' : gmap string VrdInfo),
    P vrd_map → parse_loop fuel v pos vrd_map = Ok vrd_map' → P vrd_map'.
Proof.
  intros Hins. induction fuel as [|fuel IH]; intros v pos m m' Hm; simpl.
  - destruct (pos <? vsize v); [discriminate|]. intros [= <-]. exact Hm.
  - destruct (pos <? vsize v); [|intros [= <-]; exact Hm].
    destruct (parse_command v pos m) as [[pos1 m1]| | |] eqn:Hc;
      cbn [mbind outcome_bind]; try discriminate.
    apply IH. apply parse_command_catalog in Hc as [->|(n & s & d & ->)]; auto.
Qed.

Lemma AppInitializer_new_inv (contents : list byte) (self : AppInitializer) :
  AppInitializer_new contents = Ok self →
  binary_sequence_ self = contents ∧
  parse_loop (length contents) contents 0 ∅ = Ok (vrd_map_ self).
Proof.
  unfold AppInitializer_new, parse_binary_sequence. cbn [binary_sequence_ vrd_map_].
  destruct (parse_loop _ _ _ _) as [m| | |]; cbn [mbind outcome_bind]; try discriminate.
  intros [= <-]. auto.
Qed.

Lemma parsed_not_loaded (contents : list byte) (self : AppInitializer) :
  AppInitializer_new contents = Ok self →
  ∀ k vrd, vrd_map_ self !! k = Some vrd →
           name vrd = k ∧ data vrd = [] ∧ is_loaded vrd = false.
Proof.
  intros Hnew. apply AppInitializer_new_inv in Hnew as [_ Hloop].
  eapply (parse_loop_catalog
            (λ m, ∀ k vrd, m !! k = Some vrd →
                           name vrd = k ∧ data vrd = [] ∧ is_loaded vrd = false));
    [| |exact Hloop].
  - intros m n s d Hm k vrd. rewrite lookup_insert.
    case_decide as Hk; [intros [= <-]; subst; auto | apply Hm].
  - intros k vrd. rewrite lookup_empty. discriminate.
Qed.

Lemma catalog_invariant_load (parsed : gmap string VrdInfo) (self : AppInitializer)
  (vrd_name : string) (new_data : list byte) :
  catalog_invariant parsed (vrd_map_ self) →
  catalog_invariant parsed (vrd_map_ (load_vrd_data vrd_name new_data self).2).
Proof.
  intros Hinv. unfold load_vrd_data.
  destruct (vrd_map_ self !! vrd_name) as [vrd|] eqn:Hvrd; [|exact Hinv].
  case_bool_decide as Hsz; [exact Hinv|].
  cbn [snd vrd_map_]. intros k. specialize (Hinv k).
  rewrite lookup_insert. case_decide as Hk; [subst k|exact Hinv].
  rewrite Hvrd in Hinv. destruct (parsed !! vrd_name) as [vrd0|]; [|contradiction].
  destruct Hinv as [Hsame _]. split; [exact Hsame|].
  intros _. cbn [data size]. exact Hsz.
Qed.

Lemma catalog_invariant_calls (parsed : gmap string VrdInfo) (calls : list call) :
  ∀ self : AppInitializer,
    catalog_invariant parsed (vrd_map_ self) →
    catalog_invariant parsed (vrd_map_ (after_calls calls self)).
Proof.
  induction calls as [|c calls IH]; intros self Hinv; [exact Hinv|].
  apply IH. destruct c as [vrd_name new_data|]; [|exact Hinv].
  apply catalog_invariant_load, Hinv.
Qed.

Lemma binary_sequence_calls (calls : list call) :
  ∀ self : AppInitializer,
    binary_sequence_ (after_calls calls self) = binary_sequence_ self.
Proof.
  induction calls as [|c calls IH]; intros self; [reflexivity|].
  cbn [after_calls foldl]. fold (after_calls calls (after_call c self)).
  rewrite IH. destruct c as [vrd_name new_data|]; [|reflexivity].
  unfold after_call, load_vrd_data.
  destruct (vrd_map_ self !! vrd_name); [|reflexivity].
  case_bool_decide; reflexivity.
Qed.

Lemma session_invariant (contents : list byte) (self : AppInitializer)
  (calls : list call) :
  AppInitializer_new contents = Ok self →
  binary_sequence_ (after_calls calls self) = contents ∧
  catalog_invariant (vrd_map_ self) (vrd_map_ (after_calls calls self)).
Proof.
  intros Hnew. split.
  - rewrite binary_sequence_calls. apply AppInitializer_new_inv in Hnew as [-> _].
    reflexivity.
  - apply catalog_invariant_calls. intros k.
    destruct (vrd_map_ self !! k) as [vrd|] eqn:Hk; [|exact I].
    split; [repeat split|].
    intros Hl. apply (parsed_not_loaded _ _ Hnew) in Hk as (_ & _ & Hk).
    congruence.
Qed.

(** C8.  The catalog invariant: relative to the catalog the constructor
    built, every entry keeps its name, size and destination address, and an
    entry marked loaded holds data whose length is its declared size.  It
    holds after construction, every call of [load_vrd_data] preserves it
    whether it returns or throws, and it holds after any sequence of calls of
    [load_vrd_data] and [generate_init_sequence], which also leaves the
    binary sequence as it was read. *)
Theorem catalog_invariant_preserved (contents : list byte) (self : AppInitializer) :
  AppInitializer_new contents = Ok self →
  catalog_invariant (vrd_map_ self) (vrd_map_ self) ∧
  (∀ (current : AppInitializer) (vrd_name : string) (new_data : list byte),
     catalog_invariant (vrd_map_ self) (vrd_map_ current) →
     catalog_invariant (vrd_map_ self)
       (vrd_map_ (load_vrd_data vrd_name new_data current).2)) ∧
  (∀ calls : list call,
     binary_sequence_ (after_calls calls self) = contents ∧
     catalog_invariant (vrd_map_ self) (vrd_map_ (after_calls calls self))).
Proof.
  intros Hnew. split; [|split].
  - apply (session_invariant contents self [] Hnew).
  - intros current vrd_name new_data. apply catalog_invariant_load.
  - intros calls. apply session_invariant, Hnew.
Qed.

(** ** Whole sequences of well-formed commands *)

Lemma wire_fuel (cs : list command) (post : list byte) :
  (length cs ≤ length (wire cs ++ post))%nat.
Proof.
  pose proof (wire_length cs) as Hlen. unfold vsize in Hlen.
  rewrite length_app. lia.
Qed.

Lemma AppInitializer_new_wire (cs : list command) :
  Forall well_formed cs → vsize (wire cs) < 2 ^ 63 →
  AppInitializer_new (wire cs) =
    Ok {| binary_sequence_ := wire cs; vrd_map_ := foldl declare ∅ cs |}.
Proof.
  intros Hwf Hsz. unfold AppInitializer_new, parse_binary_sequence.
  cbn [binary_sequence_ vrd_map_].
  change 0 with (vsize []).
  rewrite (parse_loop_prefix cs _ (wire cs) [] []);
    [|rewrite app_nil_r; reflexivity|assumption|assumption
     |rewrite <- (app_nil_r (wire cs)); apply wire_fuel].
  rewrite parse_loop_end by (rewrite vsize_nil; lia).
  reflexivity.
Qed.

Section GenerateWire.
Context `{Traversal}.

Lemma generate_init_sequence_wire (self : AppInitializer) (cs : list command) :
  binary_sequence_ self = wire cs → Forall well_formed cs →
  vsize (wire cs) < 2 ^ 63 → Forall (accepted (vrd_map_ self)) cs →
  first_not_loaded (vrd_map_ self) = None →
  generate_init_sequence self = Ok (emitted_all (vrd_map_ self) cs).
Proof.
  intros Hbin Hwf Hsz Hacc Hloaded. unfold generate_init_sequence.
  rewrite Hloaded, Hbin.
  change 0 with (vsize []).
  rewrite (generate_loop_prefix cs _ (wire cs) [] []);
    [|rewrite app_nil_r; reflexivity|assumption|assumption|assumption
     |rewrite <- (app_nil_r (wire cs)); apply wire_fuel].
  rewrite generate_loop_end by (rewrite vsize_nil; lia).
  reflexivity.
Qed.
End GenerateWire.

Lemma generate_command_unknown (v pre post body : list byte) (tag : byte)
  (vrd_map : gmap string VrdInfo) (init_sequence : list byte) :
  v = pre ++ wire_command (Opaque tag body) ++ post → vsize v < 2 ^ 63 →
  tag ≠ x01 → tag ≠ x02 → tag ≠ x04 →
  generate_command v vrd_map (vsize pre) init_sequence =
    Throw (UnknownCommandType (of_uint8 tag)).
Proof.
  intros Hv Hsz H1 H2 H4.
  pose proof (vsize_nonneg pre) as Hpre. pose proof (vsize_nonneg post) as Hpost.
  pose proof (vsize_nonneg body) as Hbody.
  assert (Hlen : vsize v = vsize pre + (5 + vsize body) + vsize post).
  { subst v. rewrite !vsize_app, vsize_wire_command. lia. }
  unfold generate_command. cbn [wire_command] in Hv.
  rewrite (at_index_layout v pre (uint32_le (vsize body) ++ body ++ post) tag)
    by first [reflexivity | layout].
  step. unwrap.
  rewrite (read_uint32_layout v (pre ++ [tag]) (body ++ post) (vsize body));
    [|layout|sizes|assumption].
  step.
  unfold CommandType_to_int. rewrite <- (CommandType_to_of_byte tag) at 2.
  destruct tag; try contradiction; reflexivity.
Qed.

(** ** Catalogs of command lists *)

Lemma passthrough_declare (cs : list command) (m : gmap string VrdInfo) :
  Forall passthrough cs → foldl declare m cs = m.
Proof.
  induction 1 as [|c cs Hc _ IH]; [reflexivity|].
  destruct c; [exact IH|contradiction].
Qed.

Lemma passthrough_emitted (cs : list command) (m : gmap string VrdInfo) :
  Forall passthrough cs → emitted_all m cs = wire cs.
Proof.
  induction 1 as [|c cs Hc _ IH]; [reflexivity|].
  unfold emitted_all, wire in *. cbn [map concat]. rewrite IH.
  destruct c; [reflexivity|contradiction].
Qed.

Lemma passthrough_accepted (cs : list command) (m : gmap string VrdInfo) :
  Forall passthrough cs → Forall (accepted m) cs.
Proof.
  intros Hcs. eapply Forall_impl; [exact Hcs|].
  intros [tag body|n s d] Hc; [exact Hc|contradiction].
Qed.

Lemma passthrough_generable (cs : list command) :
  Forall passthrough cs → Forall generable cs.
Proof.
  intros Hcs. eapply Forall_impl; [exact Hcs|].
  intros [tag body|n s d] Hc; [exact Hc|contradiction].
Qed.

Lemma emitted_all_app (m : gmap string VrdInfo) (cs1 cs2 : list command) :
  emitted_all m (cs1 ++ cs2) = emitted_all m cs1 ++ emitted_all m cs2.
Proof. unfold emitted_all. rewrite map_app, concat_app. reflexivity. Qed.

Lemma emitted_all_cons (m : gmap string VrdInfo) (c : command) (cs : list command) :
  emitted_all m (c :: cs) = emitted m c ++ emitted_all m cs.
Proof. reflexivity. Qed.

Lemma declare_lookup_ne (vrd_name : string) (cs : list command) :
  ∀ m : gmap string VrdInfo,
    Forall (λ c, ¬ declares vrd_name c) cs →
    foldl declare m cs !! vrd_name = m !! vrd_name.
Proof.
  induction cs as [|c cs IH]; intros m Hcs; [reflexivity|].
  apply Forall_cons in Hcs as [Hc Hcs]. cbn [foldl]. rewrite IH by assumption.
  destruct c as [tag body|n s d]; [reflexivity|].
  apply lookup_insert_ne. exact Hc.
Qed.

Lemma declare_insert_commute (vrd_name : string) (vrd : VrdInfo) (cs : list command) :
  ∀ m : gmap string VrdInfo,
    Forall (λ c, ¬ declares vrd_name c) cs →
    foldl declare (<[vrd_name := vrd]> m) cs = <[vrd_name := vrd]> (foldl declare m cs).
Proof.
  induction cs as [|c cs IH]; intros m Hcs; [reflexivity|].
  apply Forall_cons in Hcs as [Hc Hcs]. cbn [foldl].
  destruct c as [tag body|n s d]; cbn [declare]; [apply IH, Hcs|].
  rewrite <- IH by assumption. f_equal.
  apply insert_insert_ne. intros ->. apply Hc. reflexivity.
Qed.

Lemma declare_keeps (cs : list command) :
  ∀ (m : gmap string VrdInfo) (k : string),
    is_Some (m !! k) → is_Some (foldl declare m cs !! k).
Proof.
  induction cs as [|c cs IH]; intros m k Hk; [exact Hk|].
  cbn [foldl]. apply IH. destruct c as [tag body|n s d]; [exact Hk|].
  cbn [declare]. rewrite lookup_insert. case_decide; eauto.
Qed.

Lemma declare_declared (cs : list command) :
  ∀ (m : gmap string VrdInfo) (n : string) (s d : Z),
    Declaration n s d ∈ cs → is_Some (foldl declare m cs !! n).
Proof.
  induction cs as [|c cs IH]; intros m n s d Hin; [inversion Hin|].
  apply elem_of_cons in Hin as [<-|Hin]; cbn [foldl].
  - apply declare_keeps. cbn [declare]. rewrite lookup_insert_eq. eauto.
  - eapply IH, Hin.
Qed.

(** In a session every command a parse accepted keeps its catalog entry. *)
Lemma generable_accepted (cs : list command) (parsed current : gmap string VrdInfo) :
  Forall generable cs → catalog_invariant parsed current →
  (∀ n s d, Declaration n s d ∈ cs → is_Some (parsed !! n)) →
  Forall (accepted current) cs.
Proof.
  intros Hgen Hinv Hdecl. apply Forall_forall. intros c Hc.
  rewrite Forall_forall in Hgen. specialize (Hgen c Hc).
  destruct c as [tag body|n s d]; [exact Hgen|].
  cbn [accepted]. destruct (Hdecl n s d Hc) as [vrd0 Hvrd0].
  specialize (Hinv n). rewrite Hvrd0 in Hinv.
  destruct (current !! n); [eauto|contradiction].
Qed.

(** ** Round trip, substitution and unknown commands *)

Section Claims.
Context `{Traversal}.

(** C3.  For a sequence made only of well-formed APB write (0x01) and DMA
    write (0x04) commands, construction succeeds and
    [generate_init_sequence] returns the input sequence, byte for byte. *)
Theorem passthrough_round_trip (cs : list command) :
  Forall well_formed cs → Forall passthrough cs → vsize (wire cs) < 2 ^ 63 →
  ∃ self : AppInitializer,
    AppInitializer_new (wire cs) = Ok self ∧
    generate_init_sequence self = Ok (wire cs).
Proof.
  intros Hwf Hpass Hsz. eexists. split; [apply AppInitializer_new_wire; assumption|].
  rewrite (generate_init_sequence_wire _ cs); cbn [binary_sequence_ vrd_map_];
    try assumption; try reflexivity.
  - rewrite passthrough_emitted by assumption. reflexivity.
  - apply passthrough_accepted, Hpass.
  - rewrite passthrough_declare by assumption.
    apply first_not_loaded_None. intros k vrd. rewrite lookup_empty. discriminate.
Qed.

(** C2 (amended).  For a sequence with one VRD declaration of size
    [vrd_size] and destination [vrd_dst_addr] among APB and DMA writes, after
    loading [payload] of [vrd_size] bytes, [generate_init_sequence] returns
    exactly: the commands before the declaration, unchanged and in order; one
    DMA write (tag 0x04) whose length field is [vrd_size + 8] on 32 bits and
    whose body is the destination, the size (both 4 bytes little-endian) and
    the payload; the commands after it, unchanged and in order.  The
    declaration itself is not copied; nothing is said about its bytes not
    occurring inside the payload or the copied bodies. *)
Theorem declaration_substituted (before after : list command) (vrd_name : string)
  (vrd_size vrd_dst_addr : Z) (payload : list byte) :
  let cs := before ++ Declaration vrd_name vrd_size vrd_dst_addr :: after in
  Forall well_formed cs → Forall passthrough before → Forall passthrough after →
  vsize (wire cs) < 2 ^ 63 → vsize payload = vrd_size →
  ∃ self self' : AppInitializer,
    AppInitializer_new (wire cs) = Ok self ∧
    load_vrd_data vrd_name payload self = (Ok (), self') ∧
    generate_init_sequence self' =
      Ok (wire before ++
          (x04 :: uint32_le (vrd_size + 8) ++ uint32_le vrd_dst_addr ++
           uint32_le vrd_size ++ payload) ++
          wire after).
Proof.
  intros cs Hwf Hb Ha Hsz HP. subst cs.
  assert (Hcat : foldl declare ∅
                   (before ++ Declaration vrd_name vrd_size vrd_dst_addr :: after)
                 = {[vrd_name := declared_entry vrd_name vrd_size vrd_dst_addr]}).
  { rewrite foldl_app. cbn [foldl]. rewrite (passthrough_declare before) by assumption.
    rewrite passthrough_declare by assumption. reflexivity. }
  eexists. eexists. split; [apply AppInitializer_new_wire; assumption|].
  split.
  { apply (load_vrd_data_match _ _ (declared_entry vrd_name vrd_size vrd_dst_addr)).
    - cbn [vrd_map_]. rewrite Hcat. apply lookup_singleton_eq.
    - exact HP. }
  rewrite (generate_init_sequence_wire _
             (before ++ Declaration vrd_name vrd_size vrd_dst_addr :: after));
    try assumption; try reflexivity;
    cbn [with_entry binary_sequence_ vrd_map_]; rewrite Hcat, insert_singleton_eq.
  - rewrite emitted_all_app, emitted_all_cons, !passthrough_emitted by assumption.
    cbn [emitted]. rewrite lookup_singleton_eq. cbn [from_option].
    unfold dma_write, with_data, declared_entry. cbn [data dst_addr].
    rewrite HP. reflexivity.
  - apply Forall_app. split; [apply passthrough_accepted, Hb|].
    apply Forall_cons. split; [|apply passthrough_accepted, Ha].
    cbn [accepted]. rewrite lookup_singleton_eq. eauto.
  - apply first_not_loaded_None. intros k vrd Hk.
    apply lookup_singleton_Some in Hk as [_ <-]. reflexivity.
Qed.

(** C6 (amended).  A sequence of well-formed commands that contains a command
    whose tag is none of 0x01, 0x02, 0x04 (the PM_BINARY tag 0x03 among them),
    after APB writes, DMA writes and declarations only: construction succeeds
    (the command is skipped like any command other than VRD_INFO), and in any
    state of the session in which every catalog entry is loaded
    [generate_init_sequence] throws the unknown-command error carrying the
    numeric value of that tag.  While an entry is not loaded it throws the
    not-loaded error instead, before it reads any command. *)
Theorem unknown_command_rejected (before after : list command) (tag : byte)
  (body : list byte) :
  let cs := before ++ Opaque tag body :: after in
  Forall well_formed cs → Forall generable before →
  tag ≠ x01 → tag ≠ x02 → tag ≠ x04 → vsize (wire cs) < 2 ^ 63 →
  ∃ self : AppInitializer,
    AppInitializer_new (wire cs) = Ok self ∧
    ∀ calls : list call,
      all_loaded (after_calls calls self) →
      generate_init_sequence (after_calls calls self) =
        Throw (UnknownCommandType (of_uint8 tag)).
Proof.
  intros cs Hwf Hgen H1 H2 H4 Hsz.
  pose proof (AppInitializer_new_wire cs Hwf Hsz) as Hnew.
  eexists. split; [exact Hnew|]. intros calls Hloaded.
  destruct (session_invariant _ _ calls Hnew) as [Hbin Hinv].
  cbn [vrd_map_] in Hinv.
  unfold generate_init_sequence.
  rewrite (proj2 (first_not_loaded_None _) Hloaded), Hbin.
  subst cs. rewrite wire_app, wire_cons in *.
  apply Forall_app in Hwf as [Hwfb Hwfa].
  change 0 with (vsize []).
  rewrite (generate_loop_prefix before _ _ []
             (wire_command (Opaque tag body) ++ wire after));
    [|reflexivity|assumption|assumption| |apply wire_fuel].
  2:{ eapply generable_accepted; [exact Hgen|exact Hinv|].
      intros n s d Hin. eapply declare_declared.
      apply elem_of_app. left. exact Hin. }
  pose proof (wire_fuel before (wire_command (Opaque tag body) ++ wire after)) as Hf.
  pose proof (wire_command_min (Opaque tag body)) as Hmin.
  destruct (length (wire before ++ wire_command (Opaque tag body) ++ wire after)
            - length before)%nat as [|fuel] eqn:Hfuel.
  { rewrite !length_app in Hfuel. unfold vsize in Hmin.
    pose proof (wire_length before) as Hwl. unfold vsize in Hwl. lia. }
  rewrite <- vsize_app, app_nil_l.
  rewrite generate_loop_step.
  2:{ rewrite !vsize_app. pose proof (vsize_nonneg (wire after)). lia. }
  rewrite (generate_command_unknown _ (wire before) (wire after) body tag);
    try assumption; reflexivity.
Qed.
End Claims.

(** C6, counterexample.  The declaration of the sample followed by a
    PM_BINARY command: construction succeeds, and while the data of the
    declared VRD is not loaded [generate_init_sequence] throws the not-loaded
    error for it, before it reads any command, and not the unknown-command
    error. *)
Lemma unloaded_entry_precedes_unknown_command :
  ∃ self : AppInitializer,
    AppInitializer_new (wire [sample_declaration; Opaque x03 [x2a]]) = Ok self ∧
    generate_init_sequence self = Throw (VrdNotLoaded "test_vrd") ∧
    generate_init_sequence self ≠ Throw (UnknownCommandType 3).
Proof.
  eexists. split; [vm_compute; reflexivity|]. split.
  - vm_compute. reflexivity.
  - vm_compute. discriminate.
Qed.

(** ** Two declarations of one VRD *)

Lemma declare_middle (vrd_name : string) (s d : Z) (cs1 cs2 : list command)
  (m : gmap string VrdInfo) :
  Forall (λ c, ¬ declares vrd_name c) cs2 →
  foldl declare m (cs1 ++ Declaration vrd_name s d :: cs2) =
    <[vrd_name := declared_entry vrd_name s d]> (foldl declare m (cs1 ++ cs2)).
Proof.
  intros Hcs2. rewrite !foldl_app. cbn [foldl declare].
  apply declare_insert_commute, Hcs2.
Qed.

Section Duplicate.
Context `{Traversal}.

(** C7.  A sequence of well-formed commands with two declarations of
    [vrd_name], and no other declaration of that name.  Construction
    succeeds; the catalog is the catalog of the other commands plus one
    entry for [vrd_name], holding the size and destination of the later
    declaration, so the count is one more than without the two declarations.
    In any later state of the session in which every entry is loaded, the
    entry of [vrd_name] has the later size and destination, its data has that
    size, and [generate_init_sequence] puts the DMA write of that entry at
    the place of each of the two declarations. *)
Theorem duplicate_declaration (before between after : list command)
  (vrd_name : string) (size1 dst_addr1 size2 dst_addr2 : Z) :
  let cs := before ++ Declaration vrd_name size1 dst_addr1 ::
            between ++ Declaration vrd_name size2 dst_addr2 :: after in
  let others := foldl declare ∅ (before ++ between ++ after) in
  Forall well_formed cs → Forall generable cs →
  Forall (λ c, ¬ declares vrd_name c) (before ++ between ++ after) →
  vsize (wire cs) < 2 ^ 63 →
  ∃ self : AppInitializer,
    AppInitializer_new (wire cs) = Ok self ∧
    vrd_map_ self = <[vrd_name := declared_entry vrd_name size2 dst_addr2]> others ∧
    others !! vrd_name = None ∧
    get_vrd_count self = S (base.size others) ∧
    ∀ calls : list call,
      let self' := after_calls calls self in
      all_loaded self' →
      ∃ vrd : VrdInfo,
        vrd_map_ self' !! vrd_name = Some vrd ∧
        size vrd = size2 ∧ dst_addr vrd = dst_addr2 ∧ vsize (data vrd) = size2 ∧
        generate_init_sequence self' =
          Ok (emitted_all (vrd_map_ self') before ++ dma_write vrd ++
              emitted_all (vrd_map_ self') between ++ dma_write vrd ++
              emitted_all (vrd_map_ self') after).
Proof.
  intros cs others Hwf Hgen Hothers Hsz.
  pose proof (AppInitializer_new_wire cs Hwf Hsz) as Hnew.
  assert (Hnone : others !! vrd_name = None).
  { unfold others. rewrite declare_lookup_ne by assumption. apply lookup_empty. }
  assert (Hcat : foldl declare ∅ cs =
                 <[vrd_name := declared_entry vrd_name size2 dst_addr2]> others).
  { unfold cs, others.
    apply Forall_app in Hothers as [Hb Hothers].
    pose proof Hothers as Hba. apply Forall_app in Hba as [Hbt Ha].
    replace (before ++ Declaration vrd_name size1 dst_addr1 ::
             between ++ Declaration vrd_name size2 dst_addr2 :: after)
      with ((before ++ Declaration vrd_name size1 dst_addr1 :: between) ++
            Declaration vrd_name size2 dst_addr2 :: after)
      by (rewrite <- app_assoc; reflexivity).
    rewrite declare_middle by assumption.
    rewrite <- app_assoc, <- app_comm_cons.
    rewrite declare_middle by assumption.
    apply insert_insert_eq. }
  eexists. split; [exact Hnew|]. cbn [vrd_map_ get_vrd_count].
  split; [exact Hcat|]. split; [exact Hnone|].
  split; [rewrite Hcat; apply map_size_insert_None, Hnone|].
  intros calls.
  destruct (session_invariant _ _ calls Hnew) as [Hbin Hinv].
  cbn [vrd_map_] in Hinv.
  set (self' := after_calls calls _) in *. intros Hloaded.
  pose proof (Hinv vrd_name) as Hentry.
  rewrite Hcat, lookup_insert_eq in Hentry.
  destruct (vrd_map_ self' !! vrd_name) as [vrd|] eqn:Hvrd; [|contradiction].
  destruct Hentry as [(Hname & Hsize & Hdst) Hfits].
  cbn [declared_entry size dst_addr] in Hsize, Hdst.
  exists vrd. split; [reflexivity|]. split; [exact Hsize|]. split; [exact Hdst|].
  split; [rewrite <- Hsize; apply Hfits, (Hloaded _ _ Hvrd)|].
  rewrite (generate_init_sequence_wire self' cs); try assumption.
  - unfold cs. rewrite emitted_all_app, emitted_all_cons, emitted_all_app,
      emitted_all_cons.
    cbn [emitted]. rewrite Hvrd. reflexivity.
  - eapply generable_accepted; [exact Hgen|exact Hinv|].
    intros n s d Hin. eapply declare_declared, Hin.
  - apply first_not_loaded_None, Hloaded.
Qed.
End Duplicate.

(** ** What a successful read says about the position *)

Lemma at_index_cases (v : list byte) (pos : Z) :
  at_index v pos = Undefined ∨ ∃ b, at_index v pos = Ok b.
Proof.
  unfold at_index. destruct (pos <? vsize v); [|auto].
  destruct (v !! Z.to_nat pos); simpl; eauto.
Qed.

Lemma at_index_Ok (v : list byte) (pos : Z) (b : byte) :
  at_index v pos = Ok b → pos < vsize v.
Proof.
  unfold at_index. destruct (Z.ltb_spec pos (vsize v)); [auto|discriminate].
Qed.

Lemma read_uint32_cases (v : list byte) (pos : Z) :
  read_uint32 v pos = Undefined ∨ ∃ x, read_uint32 v pos = Ok x.
Proof.
  unfold read_uint32.
  destruct (at_index_cases v pos) as [->|[b0 ->]]; step; [auto|].
  destruct (at_index_cases v (wrap64 (pos + 1))) as [->|[b1 ->]]; step; [auto|].
  destruct (at_index_cases v (wrap64 (pos + 2))) as [->|[b2 ->]]; step; [auto|].
  destruct (at_index_cases v (wrap64 (pos + 3))) as [->|[b3 ->]]; step; eauto.
Qed.

Lemma read_uint32_Ok (v : list byte) (pos x : Z) :
  read_uint32 v pos = Ok x → 0 ≤ pos → vsize v < 2 ^ 63 → pos + 4 ≤ vsize v.
Proof.
  unfold read_uint32. intros Hread Hpos Hsz.
  destruct (at_index v pos) as [b0| | |] eqn:H0; step; try discriminate.
  apply at_index_Ok in H0.
  destruct (at_index v (wrap64 (pos + 1))) as [b1| | |]; step; try discriminate.
  destruct (at_index v (wrap64 (pos + 2))) as [b2| | |]; step; try discriminate.
  destruct (at_index v (wrap64 (pos + 3))) as [b3| | |] eqn:H3; step; try discriminate.
  apply at_index_Ok in H3. rewrite wrap64_small in H3 by lia. lia.
Qed.

Lemma string_at_cases (v : list byte) (pos n : Z) :
  string_at v pos n = Undefined ∨ ∃ s, string_at v pos n = Ok s.
Proof. unfold string_at. destruct (_ && _); eauto. Qed.

Lemma string_at_Ok (v : list byte) (pos n : Z) (s : string) :
  string_at v pos n = Ok s → pos + n ≤ vsize v.
Proof.
  unfold string_at. destruct (Z.ltb_spec pos (vsize v)); [|discriminate].
  destruct (Z.leb_spec (pos + n) (vsize v)); [auto|discriminate].
Qed.

Lemma copy_bytes_cases (v dest : list byte) (pos n : Z) :
  copy_bytes v dest pos n = Undefined ∨ ∃ out, copy_bytes v dest pos n = Ok out.
Proof. unfold copy_bytes. destruct (_ <=? _); eauto. Qed.

(** A command that parses: where it ends and what it adds to the catalog. *)
Lemma parse_command_Ok (v : list byte) (pos pos' : Z)
  (vrd_map vrd_map' : gmap string VrdInfo) :
  parse_command v pos vrd_map = Ok (pos', vrd_map') → 0 ≤ pos → vsize v < 2 ^ 63 →
  ∃ tag len,
    at_index v pos = Ok tag ∧ read_uint32 v (pos + 1) = Ok len ∧
    0 ≤ len < 2 ^ 32 ∧ pos + 5 ≤ vsize v ∧
    match CommandType_of_byte tag with
    | VRD_INFO =>
        ∃ n s d,
          string_at v (pos + 5) (wrap32 (len - 8)) = Ok n ∧
          pos' = pos + 5 + wrap32 (len - 8) + 8 ∧ pos' ≤ vsize v ∧
          vrd_map' = <[n := declared_entry n s d]> vrd_map
    | _ => pos' = pos + 5 + len ∧ vrd_map' = vrd_map
    end.
Proof.
  unfold parse_command. intros Hparse Hpos Hsz. revert Hparse.
  destruct (at_index v pos) as [tag| | |] eqn:Htag; step; try discriminate.
  pose proof (at_index_Ok _ _ _ Htag) as Hlt.
  rewrite (wrap64_small (pos + 1)) by lia.
  destruct (read_uint32 v (pos + 1)) as [len| | |] eqn:Hlen; step; try discriminate.
  pose proof (read_uint32_range _ _ _ Hlen) as Hrange.
  pose proof (read_uint32_Ok _ _ _ Hlen ltac:(lia) Hsz) as Hhdr.
  rewrite (wrap64_small (pos + 1 + 4)) by lia.
  replace (pos + 1 + 4) with (pos + 5) by lia.
  intros Hparse.
  exists tag, len. do 4 (split; [first [reflexivity | lia]|]).
  pose proof (wrap32_range (len - 8)) as Hnl. revert Hparse.
  destruct (CommandType_of_byte tag);
    try (rewrite wrap64_small by lia; intros [= <- <-]; auto).
  destruct (string_at v (pos + 5) (wrap32 (len - 8))) as [n| | |] eqn:Hn;
    step; try discriminate.
  pose proof (string_at_Ok _ _ _ _ Hn) as Hnb.
  rewrite (wrap64_small (pos + 5 + wrap32 (len - 8))) by lia.
  destruct (read_uint32 v (pos + 5 + wrap32 (len - 8))) as [s| | |] eqn:Hs;
    step; try discriminate.
  pose proof (read_uint32_Ok _ _ _ Hs ltac:(lia) Hsz) as Hsb.
  rewrite (wrap64_small (pos + 5 + wrap32 (len - 8) + 4)) by lia.
  destruct (read_uint32 v (pos + 5 + wrap32 (len - 8) + 4)) as [d| | |] eqn:Hd;
    step; try discriminate.
  pose proof (read_uint32_Ok _ _ _ Hd ltac:(lia) Hsz) as Hdb.
  rewrite wrap64_small by lia.
  intros [= <- <-].
  exists n, s, d. split; [reflexivity|]. split; [lia|]. split; [lia|reflexivity].
Qed.

Lemma parse_command_cases (v : list byte) (pos : Z) (vrd_map : gmap string VrdInfo) :
  parse_command v pos vrd_map = Undefined ∨ ∃ r, parse_command v pos vrd_map = Ok r.
Proof.
  unfold parse_command.
  destruct (at_index_cases v pos) as [->|[tag ->]]; step; [auto|].
  destruct (read_uint32_cases v (wrap64 (pos + 1))) as [->|[len ->]]; step; [auto|].
  destruct (CommandType_of_byte tag); eauto.
  destruct (string_at_cases v (wrap64 (wrap64 (pos + 1) + 4)) (wrap32 (len - 8)))
    as [->|[n ->]]; step; [auto|].
  match goal with
  | |- context [read_uint32 v ?p ≫= _] =>
      destruct (read_uint32_cases v p) as [->|[s ->]]; step; [auto|]
  end.
  match goal with
  | |- context [read_uint32 v ?p ≫= _] =>
      destruct (read_uint32_cases v p) as [->|[d ->]]; step; eauto
  end.
Qed.

Lemma parse_loop_no_throw (fuel : nat) :
  ∀ (v : list byte) (pos : Z) (vrd_map : gmap string VrdInfo) (e : exception),
    parse_loop fuel v pos vrd_map ≠ Throw e.
Proof.
  induction fuel as [|fuel IH]; intros v pos m e; simpl;
    destruct (pos <? vsize v); try discriminate.
  destruct (parse_command_cases v pos m) as [->|[[pos' m'] ->]]; step;
    [discriminate|apply IH].
Qed.

(** The fuel given by the callers is never exhausted. *)
Lemma parse_loop_total (fuel : nat) :
  ∀ (v : list byte) (pos : Z) (vrd_map : gmap string VrdInfo),
    0 ≤ pos → vsize v < 2 ^ 63 → vsize v - pos ≤ Z.of_nat fuel →
    parse_loop fuel v pos vrd_map ≠ OutOfFuel.
Proof.
  induction fuel as [|fuel IH]; intros v pos m Hpos Hsz Hfuel; simpl;
    destruct (Z.ltb_spec pos (vsize v)); try discriminate; [lia|].
  destruct (parse_command v pos m) as [[pos' m']| | |] eqn:Hc; step; try discriminate.
  - apply parse_command_Ok in Hc as (tag & len & _ & _ & Hlen & Hhdr & Hc);
      try assumption.
    pose proof (wrap32_range (len - 8)).
    apply IH; try assumption;
      destruct (CommandType_of_byte tag);
      first [destruct Hc as [-> _] | destruct Hc as (n & s & d & _ & -> & _)]; lia.
  - destruct (parse_command_cases v pos m) as [Hu|[r Hr]]; congruence.
Qed.

Lemma generate_command_Ok (v : list byte) (vrd_map : gmap string VrdInfo)
  (pos pos' : Z) (init_sequence out : list byte) :
  generate_command v vrd_map pos init_sequence = Ok (pos', out) →
  0 ≤ pos → vsize v < 2 ^ 63 → pos + 5 ≤ pos'.
Proof.
  unfold generate_command. intros Hgen Hpos Hsz. revert Hgen.
  destruct (at_index v pos) as [tag| | |] eqn:Htag; step; try discriminate.
  pose proof (at_index_Ok _ _ _ Htag) as Hlt.
  rewrite (wrap64_small (pos + 1)) by lia.
  destruct (read_uint32 v (pos + 1)) as [len| | |] eqn:Hlen; step; try discriminate.
  pose proof (read_uint32_range _ _ _ Hlen) as Hrange.
  rewrite (wrap64_small (pos + 1 + 4)) by lia.
  rewrite (wrap64_small (pos + 1 + 4 + len)) by lia.
  match goal with
  | |- context [?o ≫= _] => destruct o as [o'| | |]; step; try discriminate
  end.
  intros [= <- _]. lia.
Qed.

Lemma generate_loop_total (fuel : nat) :
  ∀ (v : list byte) (vrd_map : gmap string VrdInfo) (pos : Z)
    (init_sequence : list byte),
    0 ≤ pos → vsize v < 2 ^ 63 → vsize v - pos ≤ Z.of_nat fuel →
    generate_loop fuel v vrd_map pos init_sequence ≠ OutOfFuel.
Proof.
  induction fuel as [|fuel IH]; intros v m pos out Hpos Hsz Hfuel; simpl;
    destruct (Z.ltb_spec pos (vsize v)); try discriminate; [lia|].
  destruct (generate_command v m pos out) as [[pos' out']| | |] eqn:Hc; step;
    try discriminate.
  - apply generate_command_Ok in Hc; try assumption. apply IH; lia.
  - exfalso. revert Hc. unfold generate_command.
    destruct (at_index_cases v pos) as [->|[tag ->]]; step; [discriminate|].
    destruct (read_uint32_cases v (wrap64 (pos + 1))) as [->|[len ->]]; step;
      [discriminate|].
    destruct (CommandType_of_byte tag); try discriminate.
    + destruct (copy_bytes_cases v
                  (append_uint32 (out ++ [CommandType_to_byte APB_WRITE]) len)
                  (wrap64 (wrap64 (pos + 1) + 4)) len) as [->|[o ->]];
        step; discriminate.
    + destruct (string_at_cases v (wrap64 (wrap64 (pos + 1) + 4)) (wrap32 (len - 8)))
        as [->|[n ->]]; step; [discriminate|].
      unfold map_at. destruct (m !! n); cbn [from_option]; step; discriminate.
    + destruct (copy_bytes_cases v
                  (append_uint32 (out ++ [CommandType_to_byte DMA_WRITE]) len)
                  (wrap64 (wrap64 (pos + 1) + 4)) len) as [->|[o ->]];
        step; discriminate.
Qed.

(** The fuel of the two loops is enough: on a vector of fewer than 2^63 bytes
    neither the constructor nor the generation ends in [OutOfFuel]. *)
Lemma AppInitializer_new_total (contents : list byte) :
  vsize contents < 2 ^ 63 → AppInitializer_new contents ≠ OutOfFuel.
Proof.
  intros Hsz. unfold AppInitializer_new, parse_binary_sequence.
  cbn [binary_sequence_ vrd_map_].
  pose proof (parse_loop_total (length contents) contents 0 ∅) as Htotal.
  destruct (parse_loop _ _ _ _); step; try discriminate.
  exfalso. apply Htotal; [lia|assumption|unfold vsize; lia|reflexivity].
Qed.

Lemma generate_init_sequence_total `{Traversal} (self : AppInitializer) :
  vsize (binary_sequence_ self) < 2 ^ 63 →
  generate_init_sequence self ≠ OutOfFuel.
Proof.
  intros Hsz. unfold generate_init_sequence.
  destruct (first_not_loaded _); [discriminate|].
  apply generate_loop_total; [lia|assumption|unfold vsize; lia].
Qed.

(** ** Generation after a successful parse *)

Lemma wrap32_negative (z : Z) : - 2 ^ 32 ≤ z < 0 → wrap32 z = z + 2 ^ 32.
Proof.
  intros Hz. unfold wrap32.
  rewrite <- (Z.mod_add z 1 (2 ^ 32)) by lia.
  rewrite Z.mul_1_l. apply Z.mod_small. lia.
Qed.

Lemma parsed_headers_step (fuel : nat) (v : list byte) (pos pos' : Z)
  (m m' : gmap string VrdInfo) :
  pos < vsize v → parse_command v pos m = Ok (pos', m') →
  parsed_headers (S fuel) v pos m = header_at v pos ++ parsed_headers fuel v pos' m'.
Proof.
  intros Hpos Hc. simpl. replace (pos <? vsize v) with true by lia.
  rewrite Hc. reflexivity.
Qed.

Lemma header_at_parsed (v : list byte) (pos : Z) (tag : byte) (len : Z) :
  at_index v pos = Ok tag → read_uint32 v (pos + 1) = Ok len → vsize v < 2 ^ 63 →
  0 ≤ pos → header_at v pos = [(tag, len)].
Proof.
  intros Htag Hlen Hsz Hpos. unfold header_at.
  pose proof (at_index_Ok _ _ _ Htag).
  rewrite wrap64_small by lia. rewrite Htag, Hlen. reflexivity.
Qed.

(** When every VRD_INFO command that parses is at least 8 bytes long,
    generation moves on to the position the parse moved on to. *)
Lemma generate_command_after_parse (v : list byte) (pos pos' : Z)
  (m m' vrd_map : gmap string VrdInfo) (init_sequence : list byte) :
  parse_command v pos m = Ok (pos', m') → 0 ≤ pos → vsize v < 2 ^ 63 →
  Forall long_declaration (header_at v pos) →
  (∀ k, is_Some (m' !! k) → is_Some (vrd_map !! k)) →
  generate_command v vrd_map pos init_sequence = Undefined ∨
  (∃ t, generate_command v vrd_map pos init_sequence = Throw (UnknownCommandType t)) ∨
  (∃ out, generate_command v vrd_map pos init_sequence = Ok (pos', out)).
Proof.
  intros Hparse Hpos Hsz Hlong Hkeys.
  apply parse_command_Ok in Hparse as (tag & len & Htag & Hlen & Hrange & Hhdr & Hc);
    [|assumption|lia].
  rewrite (header_at_parsed v pos tag len) in Hlong by assumption.
  apply Forall_cons in Hlong as [Hlong _]. unfold long_declaration in Hlong.
  cbn [fst snd] in Hlong.
  unfold generate_command. rewrite Htag. step.
  rewrite (wrap64_small (pos + 1)) by lia. rewrite Hlen. step.
  rewrite (wrap64_small (pos + 1 + 4)) by lia.
  replace (pos + 1 + 4) with (pos + 5) by lia.
  rewrite (wrap64_small (pos + 5 + len)) by lia.
  destruct (CommandType_of_byte tag) eqn:Hcmd.
  - destruct Hc as [-> _].
    destruct (copy_bytes_cases v
                (append_uint32 (init_sequence ++ [CommandType_to_byte APB_WRITE]) len)
                (pos + 5) len) as [->|[out ->]]; step; eauto.
  - destruct Hc as (n & s & d & Hn & -> & Hend & ->).
    pose proof (Hlong (CommandType_of_byte_VRD_INFO _ Hcmd)) as Hlen8.
    rewrite (wrap32_small (len - 8)) in * by lia.
    rewrite Hn. step.
    destruct (Hkeys n) as [vrd Hvrd]; [rewrite lookup_insert_eq; eauto|].
    unfold map_at. rewrite Hvrd. cbn [from_option]. step.
    right. right. eexists. do 2 f_equal. lia.
  - step. eauto.
  - destruct Hc as [-> _].
    destruct (copy_bytes_cases v
                (append_uint32 (init_sequence ++ [CommandType_to_byte DMA_WRITE]) len)
                (pos + 5) len) as [->|[out ->]]; step; eauto.
  - step. eauto.
Qed.

Lemma parse_loop_keeps_keys (fuel : nat) (v : list byte) (pos : Z)
  (m m' : gmap string VrdInfo) :
  parse_loop fuel v pos m = Ok m' → ∀ k, is_Some (m !! k) → is_Some (m' !! k).
Proof.
  apply (parse_loop_catalog (λ x, ∀ k, is_Some (m !! k) → is_Some (x !! k))).
  - intros x n s d Hx k Hk. rewrite lookup_insert. case_decide; eauto.
  - auto.
Qed.

Lemma generate_loop_after_parse (fuel1 : nat) :
  ∀ (fuel2 : nat) (v : list byte) (pos : Z) (m m' vrd_map : gmap string VrdInfo)
    (init_sequence : list byte),
    parse_loop fuel1 v pos m = Ok m' → 0 ≤ pos → vsize v < 2 ^ 63 →
    Forall long_declaration (parsed_headers fuel1 v pos m) →
    (∀ k, is_Some (m' !! k) → is_Some (vrd_map !! k)) →
    vsize v - pos ≤ Z.of_nat fuel2 →
    generate_loop fuel2 v vrd_map pos init_sequence ≠ Throw MapOutOfRange ∧
    generate_loop fuel2 v vrd_map pos init_sequence ≠ OutOfFuel.
Proof.
  induction fuel1 as [|fuel1 IH];
    intros fuel2 v pos m m' vrd_map out Hparse Hpos Hsz Hlong Hkeys Hfuel.
  - simpl in Hparse. destruct (Z.ltb_spec pos (vsize v)); [discriminate|].
    rewrite generate_loop_end by lia. split; discriminate.
  - destruct (Z.le_gt_cases (vsize v) pos) as [Hend|Hlt].
    { rewrite generate_loop_end by lia. split; discriminate. }
    rewrite parse_loop_step in Hparse by lia.
    destruct (parse_command v pos m) as [[pos1 m1]| | |] eqn:Hc;
      cbn [mbind outcome_bind] in Hparse; try discriminate.
    rewrite (parsed_headers_step fuel1 v pos pos1 m m1 Hlt Hc) in Hlong.
    apply Forall_app in Hlong as [Hhere Hlong].
    destruct fuel2 as [|fuel2]; [lia|].
    rewrite generate_loop_step by lia.
    pose proof (parse_loop_keeps_keys _ _ _ _ _ Hparse) as Hmono.
    destruct (generate_command_after_parse v pos pos1 m m1 vrd_map out
                Hc Hpos Hsz Hhere)
      as [->|[[t ->]|[out1 ->]]]; [auto| | |]; step; try (split; discriminate).
    apply parse_command_Ok in Hc as (tag & len & _ & _ & Hlen & Hhdr & Hc);
      [|assumption|lia].
    pose proof (wrap32_range (len - 8)).
    eapply IH; [exact Hparse| |assumption|exact Hlong|assumption|];
      destruct (CommandType_of_byte tag);
      first [destruct Hc as [-> _] | destruct Hc as (n & s & d & _ & -> & _)]; lia.
Qed.

(** In a sequence shorter than 2^32 + 5 bytes every VRD_INFO command that
    parses is at least 8 bytes long: a shorter one has a name of 2^32 - 8
    bytes or more, and 13 further bytes. *)
Lemma short_sequence_long_declarations (fuel : nat) :
  ∀ (v : list byte) (pos : Z) (m m' : gmap string VrdInfo),
    parse_loop fuel v pos m = Ok m' → 0 ≤ pos → vsize v < 2 ^ 32 + 5 →
    Forall long_declaration (parsed_headers fuel v pos m).
Proof.
  induction fuel as [|fuel IH]; intros v pos m m' Hparse Hpos Hsz.
  - simpl. destruct (pos <? vsize v); constructor.
  - destruct (Z.le_gt_cases (vsize v) pos) as [Hend|Hlt].
    { simpl. replace (pos <? vsize v) with false by lia. constructor. }
    rewrite parse_loop_step in Hparse by lia.
    destruct (parse_command v pos m) as [[pos1 m1]| | |] eqn:Hc;
      cbn [mbind outcome_bind] in Hparse; try discriminate.
    rewrite (parsed_headers_step fuel v pos pos1 m m1 Hlt Hc).
    apply parse_command_Ok in Hc as (tag & len & Htag & Hlen & Hrange & Hhdr & Hc);
      [|assumption|lia].
    pose proof (wrap32_range (len - 8)).
    apply Forall_app. split.
    + rewrite (header_at_parsed v pos tag len) by (assumption || lia).
      constructor; [|constructor]. intros Htag2. cbn [fst snd] in *. subst tag.
      cbn [CommandType_of_byte] in Hc.
      destruct Hc as (n & s & d & _ & -> & Hend & _).
      destruct (Z.le_gt_cases 8 len) as [|Hshort]; [assumption|].
      rewrite wrap32_negative in Hend by lia. lia.
    + eapply IH; [exact Hparse| |assumption].
      destruct (CommandType_of_byte tag);
        first [destruct Hc as [-> _] | destruct Hc as (n & s & d & _ & -> & _)]; lia.
Qed.

(** The headers a parse goes through in a sequence of well-formed commands
    are the headers of the commands; the declarations among them are at
    least 8 bytes long. *)
Lemma parsed_headers_wire (cs : list command) :
  ∀ (fuel : nat) (v pre : list byte) (m : gmap string VrdInfo),
    v = pre ++ wire cs → Forall well_formed cs → vsize v < 2 ^ 63 →
    (length cs ≤ fuel)%nat →
    parsed_headers fuel v (vsize pre) m = map header_of cs.
Proof.
  induction cs as [|c cs IH]; intros fuel v pre m Hv Hwf Hsz Hfuel.
  - subst v. cbn [wire map concat]. rewrite app_nil_r.
    destruct fuel; simpl; replace (vsize pre <? vsize pre) with false by lia;
      reflexivity.
  - apply Forall_cons in Hwf as [Hc Hcs].
    destruct fuel as [|fuel]; [simpl in Hfuel; lia|].
    rewrite wire_cons in Hv.
    pose proof (wire_command_min c) as Hmin.
    pose proof (vsize_nonneg pre) as Hpre.
    pose proof (vsize_nonneg (wire cs)) as Hw.
    assert (Hlen : vsize v = vsize pre + vsize (wire_command c) + vsize (wire cs)).
    { subst v. rewrite !vsize_app. lia. }
    rewrite (parsed_headers_step fuel v (vsize pre)
               (vsize pre + vsize (wire_command c)) m (declare m c));
      [|lia|apply (parse_command_wire v pre (wire cs)); assumption].
    rewrite <- vsize_app.
    rewrite (IH fuel v (pre ++ wire_command c));
      [|subst v; rewrite <- app_assoc; reflexivity|assumption|assumption
       |simpl in Hfuel; lia].
    cbn [map]. change (?x :: ?l) with ([x] ++ l). f_equal.
    rewrite vsize_wire_command in Hlen.
    destruct c as [tag body|n s d]; cbn [wire_command header_of] in *.
    + destruct Hc as [_ Hb]. pose proof (vsize_nonneg body).
      apply (header_at_parsed v (vsize pre) tag (vsize body)); try lia.
      * apply (at_index_layout v pre (uint32_le (vsize body) ++ body ++ wire cs));
          [layout|reflexivity].
      * rewrite <- (wrap32_small (vsize body)) by lia.
        apply (read_uint32_layout v (pre ++ [tag]) (body ++ wire cs));
          [layout|sizes|assumption].
    + destruct Hc as (Hn & _ & _).
      pose proof (vsize_nonneg (list_byte_of_string n)).
      apply (header_at_parsed v (vsize pre) x02
               (vsize (list_byte_of_string n) + 8)); try lia.
      * apply (at_index_layout v pre
                 (uint32_le (vsize (list_byte_of_string n) + 8) ++
                  list_byte_of_string n ++ uint32_le s ++ uint32_le d ++ wire cs));
          [layout|reflexivity].
      * rewrite <- (wrap32_small (vsize (list_byte_of_string n) + 8)) by lia.
        apply (read_uint32_layout v (pre ++ [x02])
                 (list_byte_of_string n ++ uint32_le s ++ uint32_le d ++ wire cs));
          [layout|sizes|assumption].
Qed.

(** So they are in every sequence of well-formed commands, of any length. *)
Lemma well_formed_long_declarations (cs : list command) :
  Forall well_formed cs → vsize (wire cs) < 2 ^ 63 →
  Forall long_declaration (parsed_headers (length (wire cs)) (wire cs) 0 ∅).
Proof.
  intros Hwf Hsz. change 0 with (vsize []).
  rewrite (parsed_headers_wire cs _ (wire cs) []);
    [|reflexivity|assumption|assumption
     |rewrite <- (app_nil_r (wire cs)); apply wire_fuel].
  apply Forall_map. eapply Forall_impl; [exact Hwf|].
  intros c Hc. unfold long_declaration.
  destruct c as [tag body|n s d]; cbn [header_of fst snd well_formed] in *.
  - intros ->. destruct Hc as [Hc _]. contradiction.
  - intros _. pose proof (vsize_nonneg (list_byte_of_string n)). lia.
Qed.

Section Lookup.
Context `{Traversal}.

(** C9 (amended).  For a binary sequence on which construction succeeds and
    in which every VRD_INFO command the parse goes through has a declared
    length of at least 8, and after any calls made on the object,
    [generate_init_sequence] never fails in [vrd_map_.at]: every name it
    decodes from a VRD_INFO command is a name of the catalog.  (Nor does it
    run out of fuel.)  The condition on the declared lengths holds for every
    sequence shorter than 2^32 + 5 bytes on which construction succeeds
    ([short_sequence_long_declarations]) and for every sequence of
    well-formed commands ([well_formed_long_declarations]); a
    [std::vector<uint8_t>] holds fewer than 2^63 bytes. *)
Theorem catalog_lookup_never_fails (contents : list byte) (self : AppInitializer)
  (calls : list call) :
  vsize contents < 2 ^ 63 → AppInitializer_new contents = Ok self →
  Forall long_declaration (parsed_headers (length contents) contents 0 ∅) →
  generate_init_sequence (after_calls calls self) ≠ Throw MapOutOfRange ∧
  generate_init_sequence (after_calls calls self) ≠ OutOfFuel.
Proof.
  intros Hsz Hnew Hlong.
  destruct (session_invariant _ _ calls Hnew) as [Hbin Hinv].
  apply AppInitializer_new_inv in Hnew as [_ Hloop].
  unfold generate_init_sequence.
  destruct (first_not_loaded _); [split; discriminate|].
  rewrite Hbin.
  eapply generate_loop_after_parse;
    [exact Hloop|lia|assumption|exact Hlong| |unfold vsize; lia].
  intros k [vrd0 Hk]. specialize (Hinv k). rewrite Hk in Hinv.
  destruct (vrd_map_ (after_calls calls self) !! k); [eauto|contradiction].
Qed.
End Lookup.

(** ** Sequences that end inside a command *)

(** A command other than VRD_INFO is skipped by its declared length, whether
    or not that many bytes follow. *)
Lemma parse_command_skip (v pre post : list byte) (tag : byte) (len : Z)
  (vrd_map : gmap string VrdInfo) :
  v = pre ++ tag :: uint32_le len ++ post → tag ≠ x02 → 0 ≤ len < 2 ^ 32 →
  vsize v < 2 ^ 63 →
  parse_command v (vsize pre) vrd_map = Ok (vsize pre + 5 + len, vrd_map).
Proof.
  intros Hv Htag Hlen Hsz.
  pose proof (vsize_nonneg pre) as Hpre. pose proof (vsize_nonneg post) as Hpost.
  assert (Hsize : vsize v = vsize pre + 5 + vsize post) by (subst v; sizes).
  unfold parse_command.
  rewrite (at_index_layout v pre (uint32_le len ++ post) tag)
    by first [reflexivity | layout].
  step. unwrap.
  rewrite (read_uint32_layout v (pre ++ [tag]) post len); [|layout|sizes|assumption].
  step. unwrap.
  destruct (CommandType_of_byte tag) eqn:E; try (do 2 f_equal; lia).
  apply CommandType_of_byte_VRD_INFO in E. contradiction.
Qed.

(** The parse of a sequence that starts with well-formed commands, at the
    first command after them. *)
Lemma parse_after_prefix (cs : list command) (post : list byte) :
  let v := wire cs ++ post in
  Forall well_formed cs → vsize v < 2 ^ 63 → 0 < vsize post →
  parse_loop (length v) v 0 ∅ =
    parse_command v (vsize (wire cs)) (foldl declare ∅ cs) ≫=
      λ '(pos, vrd_map), parse_loop (length v - length cs - 1) v pos vrd_map.
Proof.
  intros v Hwf Hsz Hpost.
  change 0 with (vsize []).
  rewrite (parse_loop_prefix cs _ v [] post);
    [|reflexivity|assumption|assumption|apply wire_fuel].
  rewrite vsize_nil, Z.add_0_l.
  pose proof (wire_fuel cs post) as Hfuel. fold v in Hfuel.
  assert (Hlen : vsize v = vsize (wire cs) + vsize post) by (unfold v; sizes).
  pose proof (wire_length cs) as Hcs.
  destruct (length v - length cs)%nat as [|fuel] eqn:Hf.
  { unfold vsize in *. lia. }
  rewrite parse_loop_step by lia.
  replace (S fuel - 1)%nat with fuel by lia. reflexivity.
Qed.

(** C1 (amended).  The parse reports no decode error: construction never
    throws.  When the sequence ends in a command other than VRD_INFO whose
    header is complete and whose declared length runs past the end, that
    command is skipped and construction succeeds, with the catalog of the
    commands before it.  When it ends in a VRD_INFO command whose declared
    length runs past the end, or is less than 8, in a sequence shorter than
    2^32 + 5 bytes, the parse reads outside the vector: the behaviour is
    undefined, and no error is reported. *)
Theorem parse_reports_no_decode_error :
  (∀ (contents : list byte) (e : exception), AppInitializer_new contents ≠ Throw e) ∧
  (∀ (cs : list command) (tag : byte) (len : Z) (rest : list byte),
     let contents := wire cs ++ tag :: uint32_le len ++ rest in
     Forall well_formed cs → tag ≠ x02 → 0 ≤ len < 2 ^ 32 → vsize rest < len →
     vsize contents < 2 ^ 63 →
     AppInitializer_new contents =
       Ok {| binary_sequence_ := contents; vrd_map_ := foldl declare ∅ cs |}) ∧
  (∀ (cs : list command) (len : Z) (rest : list byte),
     let contents := wire cs ++ x02 :: uint32_le len ++ rest in
     Forall well_formed cs → 0 ≤ len < 2 ^ 32 → len < 8 ∨ vsize rest < len →
     vsize contents < 2 ^ 32 + 5 →
     AppInitializer_new contents = Undefined).
Proof.
  split; [|split].
  - intros contents e. unfold AppInitializer_new, parse_binary_sequence.
    cbn [binary_sequence_ vrd_map_].
    pose proof (parse_loop_no_throw (length contents) contents 0 ∅) as Hno.
    destruct (parse_loop _ _ _ _); step; try discriminate.
    intros [= <-]. eapply Hno. reflexivity.
  - intros cs tag len rest contents Hwf Htag Hlen Hrest Hsz.
    pose proof (vsize_nonneg rest) as Hr. pose proof (vsize_nonneg (wire cs)) as Hw.
    unfold AppInitializer_new, parse_binary_sequence. cbn [binary_sequence_ vrd_map_].
    unfold contents at 1 2.
    rewrite parse_after_prefix; [|assumption|assumption|sizes].
    fold contents.
    rewrite (parse_command_skip contents (wire cs) rest tag len);
      [|reflexivity|assumption|assumption|assumption].
    step. rewrite parse_loop_end; [reflexivity|].
    unfold contents. rewrite vsize_app, vsize_cons, vsize_app, vsize_uint32_le. lia.
  - intros cs len rest contents Hwf Hlen Hshort Hsz.
    pose proof (vsize_nonneg rest) as Hr. pose proof (vsize_nonneg (wire cs)) as Hw.
    assert (Hsize : vsize contents = vsize (wire cs) + 5 + vsize rest).
    { unfold contents. sizes. }
    unfold AppInitializer_new, parse_binary_sequence. cbn [binary_sequence_ vrd_map_].
    unfold contents at 1 2.
    rewrite parse_after_prefix; [|assumption|fold contents; lia|sizes].
    fold contents.
    destruct (parse_command_cases contents (vsize (wire cs)) (foldl declare ∅ cs))
      as [->|[[pos' m'] Hc]]; [reflexivity|].
    exfalso.
    apply parse_command_Ok in Hc as (tag & len' & Htag & Hlen' & _ & _ & Hc);
      [|lia|lia].
    rewrite (at_index_layout contents (wire cs) (uint32_le len ++ rest) x02)
      in Htag by reflexivity.
    injection Htag as <-.
    rewrite (read_uint32_layout contents (wire cs ++ [x02]) rest len) in Hlen';
      [|unfold contents; layout|sizes|lia].
    injection Hlen' as <-. rewrite (wrap32_small len) in Hc by lia.
    cbn [CommandType_of_byte] in Hc.
    destruct Hc as (n & s & d & _ & -> & Hend & _).
    destruct (Z.le_gt_cases 8 len) as [Hlong|Hlt8].
    + rewrite wrap32_small in Hend by lia. lia.
    + rewrite wrap32_negative in Hend by lia. lia.
Qed.

(** C1, counterexample.  One APB write command of declared length 5 and no
    body: the declared length places the cursor at 10, past the end of the
    5-byte sequence, and construction completes, with an empty catalog. *)
Lemma parse_completes_on_truncated_body :
  let contents := [x01; x05; x00; x00; x00] in
  vsize contents < 0 + 1 + 4 + 5 ∧
  AppInitializer_new contents =
    Ok {| binary_sequence_ := contents; vrd_map_ := ∅ |}.
Proof. split; reflexivity. Qed.

(** ** Declaration bytes in the output; a declaration shorter than 8 *)

(** C2, counterexample.  The input is one declaration of the VRD "a" with
    size 14 and destination 0, fourteen bytes in all; those fourteen bytes
    are loaded as its data.  The output is the DMA write that carries them:
    the bytes of the declaration occur in the output. *)
Lemma declaration_bytes_in_output :
  let declaration :=
    [x02; x09; x00; x00; x00; x61; x0e; x00; x00; x00; x00; x00; x00; x00] in
  ∃ (self self' : AppInitializer) (output : list byte),
    AppInitializer_new declaration = Ok self ∧
    load_vrd_data "a" declaration self = (Ok (), self') ∧
    generate_init_sequence self' = Ok output ∧
    occurs_in declaration output.
Proof.
  do 3 eexists. split; [vm_compute; reflexivity|].
  split; [vm_compute; reflexivity|].
  split; [vm_compute; reflexivity|].
  exists [x04; x16; x00; x00; x00; x00; x00; x00; x00; x0e; x00; x00; x00], [].
  reflexivity.
Qed.

(** With [k = 2^32 - 13] the sequence has 2^32 + 5 bytes.  The name of the
    first command is read over the 2^32 - 8 bytes after its header, and the
    parse ends at the end of the sequence; generation moves on by the
    declared length, 0, and meets the second command inside that name. *)
Section ShortDeclaration.
Context `{Traversal}.
Variable k : nat.
Hypothesis Hk : Z.of_nat k = 2 ^ 32 - 13.

Lemma short_declaration_size : vsize (short_declaration k) = 2 ^ 32 + 5.
Proof.
  unfold short_declaration, vsize. rewrite !length_app, length_replicate.
  cbn [length]. lia.
Qed.

Lemma short_declaration_name : declared_name k ≠ "".
Proof.
  unfold declared_name.
  destruct (Z.to_nat (2 ^ 32 - 8)) as [|m] eqn:E; [lia|].
  discriminate.
Qed.

Lemma short_declaration_layout :
  short_declaration k =
    [x02] ++ uint32_le 0 ++ [x02] ++ uint32_le 8 ++ replicate k x00 ++
             uint32_le 0 ++ uint32_le 0.
Proof. reflexivity. Qed.

Lemma short_declaration_string :
  string_at (short_declaration k) 5 (2 ^ 32 - 8) = Ok (declared_name k).
Proof.
  unfold string_at. rewrite short_declaration_size.
  replace (5 <? 2 ^ 32 + 5) with true by lia.
  replace (5 + (2 ^ 32 - 8) <=? 2 ^ 32 + 5) with true by lia.
  reflexivity.
Qed.

Lemma short_declaration_parse_command (vrd_map : gmap string VrdInfo) :
  parse_command (short_declaration k) 0 vrd_map =
    Ok (2 ^ 32 + 5, <[declared_name k := declared_entry (declared_name k) 0 0]> vrd_map).
Proof.
  pose proof short_declaration_size as Hsize.
  pose proof short_declaration_layout as Hlay.
  unfold parse_command.
  rewrite (at_index_layout (short_declaration k) [] _ x02 0 Hlay) by reflexivity. step.
  cbn [CommandType_of_byte]. unwrap.
  rewrite (read_uint32_layout (short_declaration k) [x02] _ 0 (0 + 1) Hlay); [|sizes|lia].
  step. unwrap. rewrite (wrap32_negative (0 - 8)) by lia.
  replace (0 + 1 + 4) with 5 by lia.
  replace (0 - 8 + 2 ^ 32) with (2 ^ 32 - 8) by lia.
  rewrite short_declaration_string. step. unwrap.
  rewrite (read_uint32_layout (short_declaration k)
             ([x02] ++ uint32_le 0 ++ [x02] ++ uint32_le 8 ++ replicate k x00)
             (uint32_le 0) 0 (5 + (2 ^ 32 - 8)));
    [|rewrite Hlay; layout
     |unfold vsize; rewrite !length_app, length_replicate; cbn [length uint32_le]; lia
     |lia].
  step. unwrap.
  rewrite (read_uint32_layout (short_declaration k)
             ([x02] ++ uint32_le 0 ++ [x02] ++ uint32_le 8 ++ replicate k x00 ++
              uint32_le 0) [] 0 (5 + (2 ^ 32 - 8) + 4));
    [|rewrite Hlay, app_nil_r; layout
     |unfold vsize; rewrite !length_app, length_replicate; cbn [length uint32_le]; lia
     |lia].
  step. unwrap. do 2 f_equal; lia.
Qed.

Lemma short_declaration_fuel : ∃ fuel, length (short_declaration k) = S (S fuel).
Proof.
  exists (k + 16)%nat. unfold short_declaration.
  rewrite !length_app, length_replicate. cbn [length]. lia.
Qed.

Lemma short_declaration_new :
  AppInitializer_new (short_declaration k) =
    Ok {| binary_sequence_ := short_declaration k;
          vrd_map_ := {[declared_name k := declared_entry (declared_name k) 0 0]} |}.
Proof.
  pose proof short_declaration_size as Hsize.
  unfold AppInitializer_new, parse_binary_sequence. cbn [binary_sequence_ vrd_map_].
  destruct short_declaration_fuel as [fuel ->].
  rewrite parse_loop_step by lia.
  rewrite short_declaration_parse_command. step.
  rewrite parse_loop_end by lia. reflexivity.
Qed.

Lemma short_declaration_generate (vrd : VrdInfo) :
  is_loaded vrd = true →
  generate_init_sequence
    {| binary_sequence_ := short_declaration k; vrd_map_ := {[declared_name k := vrd]} |}
  = Throw MapOutOfRange.
Proof.
  intros Hloaded.
  pose proof short_declaration_size as Hsize.
  pose proof short_declaration_layout as Hlay.
  unfold generate_init_sequence. cbn [binary_sequence_ vrd_map_].
  rewrite (proj2 (first_not_loaded_None _)).
  2:{ intros n v Hn. apply lookup_singleton_Some in Hn as [_ <-]. exact Hloaded. }
  destruct short_declaration_fuel as [fuel ->].
  rewrite generate_loop_step by lia.
  (* the declaration at position 0 *)
  unfold generate_command at 1.
  rewrite (at_index_layout (short_declaration k) [] _ x02 0 Hlay) by reflexivity. step.
  cbn [CommandType_of_byte]. unwrap.
  rewrite (read_uint32_layout (short_declaration k) [x02] _ 0 (0 + 1) Hlay); [|sizes|lia].
  step. unwrap. rewrite (wrap32_negative (0 - 8)) by lia.
  replace (0 + 1 + 4) with 5 by lia.
  replace (0 - 8 + 2 ^ 32) with (2 ^ 32 - 8) by lia.
  rewrite short_declaration_string. step.
  unfold map_at at 1. rewrite lookup_singleton_eq. cbn [from_option]. step.
  unwrap. replace (5 + 0) with 5 by lia.
  (* the bytes at position 5, inside the name *)
  rewrite generate_loop_step by lia.
  unfold generate_command.
  rewrite (at_index_layout (short_declaration k) ([x02] ++ uint32_le 0) _ x02 5 Hlay)
    by reflexivity.
  step. cbn [CommandType_of_byte]. unwrap.
  rewrite (read_uint32_layout (short_declaration k) ([x02] ++ uint32_le 0 ++ [x02])
             (replicate k x00 ++ uint32_le 0 ++ uint32_le 0) 8 (5 + 1));
    [|rewrite Hlay; layout|sizes|lia].
  step. unwrap. replace (8 - 8) with 0 by lia. unwrap.
  unfold string_at. rewrite Hsize.
  replace (5 + 1 + 4 <? 2 ^ 32 + 5) with true by lia.
  replace (5 + 1 + 4 + 0 <=? 2 ^ 32 + 5) with true by lia.
  cbn [andb]. step. change (Z.to_nat 0) with 0%nat. rewrite take_0.
  change (string_of_list_byte []) with ""%string.
  unfold map_at. rewrite lookup_singleton_ne by apply short_declaration_name.
  reflexivity.
Qed.

Lemma short_declaration_breaks_lookup :
  ∃ (self self' : AppInitializer) (vrd_name : string),
    AppInitializer_new (short_declaration k) = Ok self ∧
    load_vrd_data vrd_name [] self = (Ok (), self') ∧
    generate_init_sequence self' = Throw MapOutOfRange.
Proof.
  eexists. eexists. exists (declared_name k).
  split; [apply short_declaration_new|].
  split.
  - apply (load_vrd_data_match _ _ (declared_entry (declared_name k) 0 0));
      [apply lookup_singleton_eq|reflexivity].
  - unfold with_entry. cbn [binary_sequence_ vrd_map_].
    rewrite insert_singleton_eq. apply short_declaration_generate. reflexivity.
Qed.
End ShortDeclaration.

(** C9, counterexample.  A sequence of 2^32 + 5 bytes on which construction
    succeeds, and for which, once the data of its one VRD is loaded,
    [generate_init_sequence] fails in [vrd_map_.at]: its first command is a
    VRD_INFO command of declared length 0. *)
Lemma lookup_fails_after_short_declaration :
  let contents :=
    [x02; x00; x00; x00; x00; x02; x08; x00; x00; x00] ++
    replicate (Z.to_nat (2 ^ 32 - 13)) x00 ++
    [x00; x00; x00; x00; x00; x00; x00; x00] in
  ∃ (self self' : AppInitializer) (vrd_name : string),
    AppInitializer_new contents = Ok self ∧
    load_vrd_data vrd_name [] self = (Ok (), self') ∧
    generate_init_sequence self' = Throw MapOutOfRange.
Proof.
  apply (short_declaration_breaks_lookup (Z.to_nat (2 ^ 32 - 13))).
  rewrite Z2Nat.id; lia.
Qed.

(** ** The sample of the test program, and instances of the theorems *)

Example sample_sequence_wire :
  wire [sample_apb_write; sample_declaration; sample_dma_write] = sample_sequence.
Proof. reflexivity. Qed.

Example sample_sequence_new : AppInitializer_new sample_sequence = Ok sample_initializer.
Proof. vm_compute. reflexivity. Qed.

(** The run of [main]: the APB write, a DMA write of the sixteen loaded bytes
    to 0x2000, and the DMA write of the input. *)
Example sample_sequence_generated :
  generate_init_sequence (load_vrd_data "test_vrd" sample_vrd_data sample_initializer).2 =
    Ok (wire [sample_apb_write;
              Opaque x04 (uint32_le 8192 ++ uint32_le 16 ++ sample_vrd_data);
              sample_dma_write]).
Proof. vm_compute. reflexivity. Qed.

Ltac evaluate :=
  vm_compute; first [reflexivity | discriminate | intro; discriminate].

(** Every command of a given list is an APB write, a DMA write or a
    declaration. *)
Ltac each_command :=
  repeat (constructor; [first [left; reflexivity | right; reflexivity | exact I]|]);
  constructor.

(** An APB write header of declared length 5 with no body is skipped; a
    VRD_INFO header of declared length 5 with no body is read out of bounds. *)
Lemma parse_reports_no_decode_error_witness :
  AppInitializer_new [x01; x05; x00; x00; x00] =
    Ok {| binary_sequence_ := [x01; x05; x00; x00; x00]; vrd_map_ := ∅ |} ∧
  AppInitializer_new [x02; x05; x00; x00; x00] = Undefined.
Proof.
  destruct parse_reports_no_decode_error as (_ & Hskip & Hundef). split.
  - apply (Hskip [] x01 5 []); [constructor|discriminate|lia|evaluate|evaluate].
  - apply (Hundef [] 5 []); [constructor|lia|left; lia|evaluate].
Defined.

(** The two writes of the sample go through unchanged. *)
Lemma passthrough_round_trip_witness :
  ∃ self : AppInitializer,
    AppInitializer_new (wire [sample_apb_write; sample_dma_write]) = Ok self ∧
    generate_init_sequence self = Ok (wire [sample_apb_write; sample_dma_write]).
Proof.
  apply passthrough_round_trip.
  - repeat constructor; evaluate.
  - each_command.
  - evaluate.
Defined.

(** The run of the test program. *)
Lemma declaration_substituted_witness :
  ∃ self self' : AppInitializer,
    AppInitializer_new
      (wire ([sample_apb_write] ++ sample_declaration :: [sample_dma_write]))
      = Ok self ∧
    load_vrd_data "test_vrd" sample_vrd_data self = (Ok (), self') ∧
    generate_init_sequence self' =
      Ok (wire [sample_apb_write] ++
          (x04 :: uint32_le (16 + 8) ++ uint32_le 8192 ++ uint32_le 16 ++
           sample_vrd_data) ++
          wire [sample_dma_write]).
Proof.
  apply (declaration_substituted [sample_apb_write] [sample_dma_write]
           "test_vrd" 16 8192 sample_vrd_data).
  - repeat constructor; evaluate.
  - each_command.
  - each_command.
  - evaluate.
  - reflexivity.
Defined.

(** Generation before the data of the sample VRD is loaded. *)
Lemma generate_init_sequence_unloaded_witness :
  ∃ before k vrd after,
    traverse (vrd_map_ sample_initializer) = before ++ (k, vrd) :: after ∧
    Forall (λ vrd_pair, is_loaded vrd_pair.2 = true) before ∧
    is_loaded vrd = false ∧
    generate_init_sequence sample_initializer = Throw (VrdNotLoaded k).
Proof.
  apply generate_init_sequence_unloaded.
  exists "test_vrd"%string, (declared_entry "test_vrd" 16 8192).
  split; reflexivity.
Defined.

(** One byte for the 16-byte sample VRD is refused; sixteen are accepted. *)
Lemma load_vrd_data_size_check_witness :
  load_vrd_data "test_vrd" [x00] sample_initializer =
    (Throw (VrdSizeMismatch "test_vrd" 16 1), sample_initializer) ∧
  ∃ self' : AppInitializer,
    load_vrd_data "test_vrd" sample_vrd_data sample_initializer = (Ok (), self') ∧
    vrd_map_ self' !! "test_vrd"%string =
      Some (with_data (declared_entry "test_vrd" 16 8192) sample_vrd_data).
Proof.
  destruct (load_vrd_data_size_check sample_initializer "test_vrd"
              (declared_entry "test_vrd" 16 8192) [x00]) as [Hbad _];
    [reflexivity|].
  destruct (load_vrd_data_size_check sample_initializer "test_vrd"
              (declared_entry "test_vrd" 16 8192) sample_vrd_data) as [_ Hgood];
    [reflexivity|].
  split.
  - apply Hbad. evaluate.
  - destruct (Hgood eq_refl) as (self' & Hload & Hentry & _).
    exists self'. split; assumption.
Defined.

(** A PM_BINARY command after the declaration and the APB write of the
    sample, once the data of the declared VRD is loaded. *)
Lemma unknown_command_rejected_witness :
  ∃ self : AppInitializer,
    AppInitializer_new
      (wire ([sample_declaration; sample_apb_write] ++
             Opaque x03 [x2a] :: [sample_dma_write]))
      = Ok self ∧
    generate_init_sequence (after_calls [LoadVrdData "test_vrd" sample_vrd_data] self) =
      Throw (UnknownCommandType 3).
Proof.
  destruct (unknown_command_rejected [sample_declaration; sample_apb_write]
              [sample_dma_write] x03 [x2a])
    as (self & Hnew & Hgen).
  - repeat constructor; evaluate.
  - each_command.
  - discriminate.
  - discriminate.
  - discriminate.
  - evaluate.
  - exists self. split; [exact Hnew|].
    apply (Hgen [LoadVrdData "test_vrd" sample_vrd_data]).
    rewrite AppInitializer_new_wire in Hnew;
      [|repeat constructor; evaluate|evaluate].
    injection Hnew as <-. intros k vrd.
    cbn [after_calls foldl after_call].
    rewrite (load_vrd_data_match _ "test_vrd"
               (declared_entry "test_vrd" 16 8192) sample_vrd_data);
      [|reflexivity|reflexivity].
    cbn [snd with_entry vrd_map_ app foldl declare sample_declaration
         sample_apb_write sample_dma_write].
    rewrite insert_insert_eq.
    intros Hk. apply lookup_insert_Some in Hk as [[_ <-]|[_ Hk]];
      [reflexivity|]. rewrite lookup_empty in Hk. discriminate.
Defined.

(** The sample VRD declared twice, first with size 4, then with size 16, and
    loaded with its sixteen bytes. *)
Lemma duplicate_declaration_witness :
  ∃ self : AppInitializer,
    AppInitializer_new
      (wire ([] ++ Declaration "test_vrd" 4 4096 ::
             [sample_apb_write] ++ Declaration "test_vrd" 16 8192 :: []))
      = Ok self ∧
    vrd_map_ self !! "test_vrd"%string = Some (declared_entry "test_vrd" 16 8192) ∧
    get_vrd_count self = 1%nat ∧
    ∃ vrd : VrdInfo,
      size vrd = 16 ∧ dst_addr vrd = 8192 ∧
      generate_init_sequence
        (after_calls [LoadVrdData "test_vrd" sample_vrd_data] self) =
        Ok (dma_write vrd ++ wire [sample_apb_write] ++ dma_write vrd).
Proof.
  destruct (duplicate_declaration [] [sample_apb_write] [] "test_vrd" 4 4096 16 8192)
    as (self & Hnew & Hmap & _ & Hcount & Hgen).
  - repeat constructor; evaluate.
  - each_command.
  - repeat constructor. intros [].
  - evaluate.
  - exists self. split; [exact Hnew|]. split; [|split; [exact Hcount|]].
    + rewrite Hmap. apply lookup_insert_eq.
    + cbn [app foldl declare sample_apb_write] in Hmap.
      assert (Hloaded : all_loaded
                (after_calls [LoadVrdData "test_vrd" sample_vrd_data] self)).
      { intros k vrd. cbn [after_calls foldl after_call].
        rewrite (load_vrd_data_match self "test_vrd"
                   (declared_entry "test_vrd" 16 8192) sample_vrd_data);
          [|rewrite Hmap; apply lookup_insert_eq|reflexivity].
        cbn [snd with_entry vrd_map_]. rewrite Hmap, insert_insert_eq.
        intros Hk. apply lookup_insert_Some in Hk as [[_ <-]|[_ Hk]];
          [reflexivity|]. rewrite lookup_empty in Hk. discriminate. }
      destruct (Hgen _ Hloaded) as (vrd & _ & Hsize & Hdst & _ & Hout).
      exists vrd. split; [exact Hsize|]. split; [exact Hdst|].
      rewrite Hout. unfold emitted_all, wire, sample_apb_write.
      cbn [map concat emitted app]. rewrite !app_nil_r. reflexivity.
Defined.

(** A refused load, an accepted load and a generation on the sample. *)
Lemma catalog_invariant_preserved_witness :
  catalog_invariant (vrd_map_ sample_initializer)
    (vrd_map_ (after_calls [LoadVrdData "test_vrd" [x00];
                            LoadVrdData "test_vrd" sample_vrd_data;
                            GenerateInitSequence] sample_initializer)).
Proof.
  destruct (catalog_invariant_preserved sample_sequence sample_initializer)
    as (_ & _ & Hcalls); [evaluate|].
  apply Hcalls.
Defined.

(** Generation on the sample, once its VRD is loaded. *)
Lemma catalog_lookup_never_fails_witness :
  generate_init_sequence
    (after_calls [LoadVrdData "test_vrd" sample_vrd_data] sample_initializer)
    ≠ Throw MapOutOfRange ∧
  generate_init_sequence
    (after_calls [LoadVrdData "test_vrd" sample_vrd_data] sample_initializer)
    ≠ OutOfFuel.
Proof.
  apply (catalog_lookup_never_fails sample_sequence); [evaluate|evaluate|].
  vm_compute.
  repeat (constructor; [intros; first [discriminate | lia]|]). constructor.
Defined.

(** Loading the sample VRD. *)
Lemma load_vrd_data_frame_witness :
  binary_sequence_ (load_vrd_data "test_vrd" sample_vrd_data sample_initializer).2 =
    binary_sequence_ sample_initializer ∧
  dom (vrd_map_ (load_vrd_data "test_vrd" sample_vrd_data sample_initializer).2) =
    dom (vrd_map_ sample_initializer).
Proof.
  destruct (load_vrd_data_frame sample_initializer
              (load_vrd_data "test_vrd" sample_vrd_data sample_initializer).2
              "test_vrd" sample_vrd_data) as (Hbin & Hdom & _); [reflexivity|].
  split; assumption.
Defined.

(** * Further properties of the code *)

(** ** read_uint32 and append_uint32 *)

(** X1.  A value appended with [append_uint32] is read back by [read_uint32]
    at the position where it was appended, reduced to 32 bits, whatever
    follows it. *)
Theorem read_uint32_append_uint32 (vec rest : list byte) (value : Z) :
  vsize vec + 4 + vsize rest < 2 ^ 63 →
  read_uint32 (append_uint32 vec value ++ rest) (vsize vec) = Ok (wrap32 value).
Proof.
  intros Hsz. apply (read_uint32_layout _ vec rest value).
  - rewrite append_uint32_le, <- app_assoc. reflexivity.
  - reflexivity.
  - rewrite append_uint32_le, !vsize_app, vsize_uint32_le. lia.
Qed.

Lemma read_uint32_append_uint32_witness :
  read_uint32 (append_uint32 [xaa] (2 ^ 32 + 258) ++ [xbb]) (vsize [xaa]) = Ok 258.
Proof. apply (read_uint32_append_uint32 [xaa] [xbb] (2 ^ 32 + 258)). evaluate. Defined.

Lemma byte_small (b : byte) (n : Z) : 8 ≤ n → Z.testbit (of_uint8 b) n = false.
Proof.
  intros Hn. pose proof (of_uint8_range b) as Hb.
  rewrite <- (Z.mod_small (of_uint8 b) 256) by lia.
  rewrite testbit_mod256 by lia.
  replace (n <? 8) with false by lia. reflexivity.
Qed.

(** Each byte of a little-endian field is recovered from the assembled
    value. *)
Lemma to_uint8_lor_bytes (b0 b1 b2 b3 : byte) :
  uint32_le (Z.lor (Z.lor (Z.lor (of_uint8 b0) (Z.shiftl (of_uint8 b1) 8))
                          (Z.shiftl (of_uint8 b2) 16))
                   (Z.shiftl (of_uint8 b3) 24)) = [b0; b1; b2; b3].
Proof.
  assert (Hbyte : ∀ (z : Z) (b : byte),
             (∀ n, 0 ≤ n < 8 → Z.testbit z n = Z.testbit (of_uint8 b) n) →
             to_uint8 z = b).
  { intros z b Hbits. rewrite <- (to_of_uint8 b). unfold to_uint8. do 3 f_equal.
    apply Z.bits_inj'. intros n Hn. rewrite !testbit_mod256 by lia.
    destruct (Z.ltb_spec n 8); [|reflexivity]. simpl. apply Hbits. lia. }
  unfold uint32_le.
  repeat f_equal; apply Hbyte; intros n Hn;
    rewrite ?Z.shiftr_spec by lia;
    rewrite !Z.lor_spec, !Z.shiftl_spec by lia.
  - rewrite !(Z.testbit_neg_r _ (n - _)) by lia. rewrite !orb_false_r. reflexivity.
  - rewrite (byte_small b0), (Z.testbit_neg_r _ (n + 8 - 16)),
      (Z.testbit_neg_r _ (n + 8 - 24)) by lia.
    rewrite !orb_false_r. simpl. f_equal. lia.
  - rewrite (byte_small b0), (byte_small b1), (Z.testbit_neg_r _ (n + 16 - 24)) by lia.
    rewrite !orb_false_r. simpl. f_equal. lia.
  - rewrite (byte_small b0), (byte_small b1), (byte_small b2) by lia.
    simpl. f_equal. lia.
Qed.

Lemma at_index_lookup (v : list byte) (pos : Z) (b : byte) :
  at_index v pos = Ok b → v !! Z.to_nat pos = Some b.
Proof.
  unfold at_index. destruct (pos <? vsize v); [|discriminate].
  destruct (v !! Z.to_nat pos); simpl; [intros [= ->]; reflexivity|discriminate].
Qed.

(** X2.  A value that [read_uint32] returns lies in [0, 2^32), and
    [append_uint32] writes it as the very four bytes it was read from. *)
Theorem append_uint32_read_uint32 (v : list byte) (pos x : Z) :
  read_uint32 v pos = Ok x → 0 ≤ pos → vsize v < 2 ^ 63 →
  0 ≤ x < 2 ^ 32 ∧
  append_uint32 [] x = take 4 (drop (Z.to_nat pos) v).
Proof.
  intros Hread Hpos Hsz. split; [eapply read_uint32_range, Hread|].
  pose proof (read_uint32_Ok _ _ _ Hread Hpos Hsz) as Hend.
  revert Hread. unfold read_uint32.
  destruct (at_index v pos) as [b0| | |] eqn:H0; step; try discriminate.
  rewrite !wrap64_small by lia.
  destruct (at_index v (pos + 1)) as [b1| | |] eqn:H1; step; try discriminate.
  destruct (at_index v (pos + 2)) as [b2| | |] eqn:H2; step; try discriminate.
  destruct (at_index v (pos + 3)) as [b3| | |] eqn:H3; step; try discriminate.
  intros [= <-]. rewrite append_uint32_le, app_nil_l, to_uint8_lor_bytes.
  apply at_index_lookup in H0, H1, H2, H3.
  replace (Z.to_nat (pos + 1)) with (S (Z.to_nat pos)) in H1 by lia.
  replace (Z.to_nat (pos + 2)) with (S (S (Z.to_nat pos))) in H2 by lia.
  replace (Z.to_nat (pos + 3)) with (S (S (S (Z.to_nat pos)))) in H3 by lia.
  rewrite (drop_S _ _ _ H0), (drop_S _ _ _ H1), (drop_S _ _ _ H2), (drop_S _ _ _ H3).
  reflexivity.
Qed.

Lemma append_uint32_read_uint32_witness :
  0 ≤ 8 < 2 ^ 32 ∧
  append_uint32 [] 8 = take 4 (drop (Z.to_nat 1) sample_sequence).
Proof. apply append_uint32_read_uint32; evaluate. Defined.

(** ** The catalog after construction *)

Lemma declare_last (vrd_name : string) (s d : Z) (cs1 cs2 : list command)
  (m : gmap string VrdInfo) :
  Forall (λ c, ¬ declares vrd_name c) cs2 →
  foldl declare m (cs1 ++ Declaration vrd_name s d :: cs2) !! vrd_name =
    Some (declared_entry vrd_name s d).
Proof.
  intros Hcs2. rewrite foldl_app. cbn [foldl].
  rewrite declare_lookup_ne by assumption. apply lookup_insert_eq.
Qed.

(** X3.  After the construction from a sequence of well-formed commands, a
    declared VRD exists and [get_vrd_info] returns the size and destination
    of its last declaration, with no data and not loaded. *)
Theorem declared_vrd_info (cs1 cs2 : list command) (vrd_name : string)
  (vrd_size vrd_dst_addr : Z) :
  let cs := cs1 ++ Declaration vrd_name vrd_size vrd_dst_addr :: cs2 in
  Forall well_formed cs → Forall (λ c, ¬ declares vrd_name c) cs2 →
  vsize (wire cs) < 2 ^ 63 →
  ∃ self : AppInitializer,
    AppInitializer_new (wire cs) = Ok self ∧
    has_vrd self vrd_name = true ∧
    get_vrd_info self vrd_name =
      Ok (declared_entry vrd_name vrd_size vrd_dst_addr).
Proof.
  intros cs Hwf Hcs2 Hsz. eexists. split; [apply AppInitializer_new_wire; assumption|].
  unfold has_vrd, get_vrd_info. cbn [vrd_map_].
  unfold cs. rewrite declare_last by assumption.
  split; [apply bool_decide_eq_true_2; eauto|reflexivity].
Qed.

Lemma declared_vrd_info_witness :
  ∃ self : AppInitializer,
    AppInitializer_new
      (wire ([Declaration "test_vrd" 4 4096] ++ sample_declaration :: [sample_dma_write]))
      = Ok self ∧
    has_vrd self "test_vrd" = true ∧
    get_vrd_info self "test_vrd" = Ok (declared_entry "test_vrd" 16 8192).
Proof.
  apply (declared_vrd_info [Declaration "test_vrd" 4 4096] [sample_dma_write]
           "test_vrd" 16 8192).
  - repeat constructor; evaluate.
  - repeat constructor. intros [].
  - evaluate.
Defined.

(** X4.  A name that no command of a well-formed sequence declares is absent
    throughout the session: in every later state [has_vrd] is false,
    [get_vrd_info] throws the not-found error, and [load_vrd_data] throws it
    too and leaves the object as it was. *)
Theorem undeclared_vrd_not_found (cs : list command) (vrd_name : string) :
  Forall well_formed cs → Forall (λ c, ¬ declares vrd_name c) cs →
  vsize (wire cs) < 2 ^ 63 →
  ∃ self : AppInitializer,
    AppInitializer_new (wire cs) = Ok self ∧
    ∀ calls : list call,
      let self' := after_calls calls self in
      has_vrd self' vrd_name = false ∧
      get_vrd_info self' vrd_name = Throw (VrdNotFound vrd_name) ∧
      ∀ new_data : list byte,
        load_vrd_data vrd_name new_data self' = (Throw (VrdNotFound vrd_name), self').
Proof.
  intros Hwf Hcs Hsz.
  pose proof (AppInitializer_new_wire cs Hwf Hsz) as Hnew.
  eexists. split; [exact Hnew|]. intros calls.
  destruct (session_invariant _ _ calls Hnew) as [_ Hinv].
  specialize (Hinv vrd_name). cbn [vrd_map_] in Hinv.
  rewrite declare_lookup_ne, lookup_empty in Hinv by assumption.
  set (self' := after_calls calls _) in *. cbn zeta.
  destruct (vrd_map_ self' !! vrd_name) as [vrd|] eqn:Hvrd; [contradiction|].
  split; [|split].
  - unfold has_vrd. rewrite Hvrd. apply bool_decide_eq_false_2. intros [? [=]].
  - unfold get_vrd_info. rewrite Hvrd. reflexivity.
  - intros new_data. apply load_vrd_data_not_found, Hvrd.
Qed.

Lemma undeclared_vrd_not_found_witness :
  ∃ self : AppInitializer,
    AppInitializer_new (wire [sample_apb_write; sample_declaration]) = Ok self ∧
    ∀ calls : list call,
      let self' := after_calls calls self in
      has_vrd self' "other" = false ∧
      get_vrd_info self' "other" = Throw (VrdNotFound "other") ∧
      ∀ new_data : list byte,
        load_vrd_data "other" new_data self' = (Throw (VrdNotFound "other"), self').
Proof.
  apply (undeclared_vrd_not_found [sample_apb_write; sample_declaration] "other").
  - repeat constructor; evaluate.
  - repeat constructor; [intros []|intros [=]].
  - evaluate.
Defined.

Lemma declare_dom (cs : list command) :
  ∀ m : gmap string VrdInfo,
    dom (foldl declare m cs) = dom m ∪ list_to_set (declared_names cs).
Proof.
  induction cs as [|c cs IH]; intros m.
  - change (declared_names []) with (@nil string).
    rewrite list_to_set_nil, union_empty_r_L. reflexivity.
  - cbn [foldl]. rewrite IH. destruct c as [tag body|n s d]; cbn [declare].
    + reflexivity.
    + change (declared_names (Declaration n s d :: cs)) with (n :: declared_names cs).
      rewrite dom_insert_L, list_to_set_cons, (union_comm_L {[n]} (dom m)).
      rewrite union_assoc_L. reflexivity.
Qed.

(** X5.  After the construction from a sequence of well-formed commands,
    [get_vrd_count] is the number of distinct declared names: at most the
    number of declarations, and equal to it when no name is declared twice. *)
Theorem vrd_count_distinct_names (cs : list command) :
  Forall well_formed cs → vsize (wire cs) < 2 ^ 63 →
  ∃ self : AppInitializer,
    AppInitializer_new (wire cs) = Ok self ∧
    get_vrd_count self = base.size (list_to_set (declared_names cs) : gset string) ∧
    (get_vrd_count self ≤ length (declared_names cs))%nat ∧
    (NoDup (declared_names cs) → get_vrd_count self = length (declared_names cs)).
Proof.
  intros Hwf Hsz. eexists. split; [apply AppInitializer_new_wire; assumption|].
  unfold get_vrd_count. cbn [vrd_map_].
  rewrite <- size_dom, declare_dom, dom_empty_L, union_empty_l_L.
  split; [reflexivity|]. split.
  - generalize (declared_names cs). intros l.
    induction l as [|n l IH]; [rewrite list_to_set_nil, size_empty; cbn; lia|].
    rewrite list_to_set_cons. cbn [length].
    pose proof (size_union_alt {[n]} (list_to_set l : gset string)) as Hu.
    pose proof (subseteq_size (list_to_set l ∖ {[n]}) (list_to_set l : gset string))
      as Hd.
    rewrite size_singleton in Hu. rewrite Hu.
    specialize (Hd (subseteq_difference_l _ _ _ (reflexivity _))). lia.
  - intros Hnd. apply size_list_to_set, Hnd.
Qed.

Lemma vrd_count_distinct_names_witness :
  ∃ self : AppInitializer,
    AppInitializer_new
      (wire [Declaration "a" 1 0; sample_declaration; Declaration "a" 2 0]) = Ok self ∧
    get_vrd_count self = 2%nat.
Proof.
  destruct (vrd_count_distinct_names
              [Declaration "a" 1 0; sample_declaration; Declaration "a" 2 0])
    as (self & Hnew & Hcount & _).
  - repeat constructor; evaluate.
  - evaluate.
  - exists self. split; [exact Hnew|]. rewrite Hcount. reflexivity.
Defined.

Lemma parse_command_entry (v : list byte) (pos pos' : Z)
  (vrd_map vrd_map' : gmap string VrdInfo) :
  parse_command v pos vrd_map = Ok (pos', vrd_map') →
  vrd_map' = vrd_map ∨
  ∃ n s d, 0 ≤ s < 2 ^ 32 ∧ 0 ≤ d < 2 ^ 32 ∧
           vrd_map' = <[n := declared_entry n s d]> vrd_map.
Proof.
  unfold parse_command.
  destruct (at_index v pos) as [tag| | |]; step; try discriminate.
  destruct (read_uint32 v _) as [len| | |]; step; try discriminate.
  destruct (CommandType_of_byte tag); try (intros [= _ <-]; left; reflexivity).
  destruct (string_at v _ _) as [n| | |]; step; try discriminate.
  match goal with
  | |- (read_uint32 v ?p ≫= _) = _ → _ =>
      destruct (read_uint32 v p) as [s| | |] eqn:Hs; step; try discriminate
  end.
  match goal with
  | |- (read_uint32 v ?p ≫= _) = _ → _ =>
      destruct (read_uint32 v p) as [d| | |] eqn:Hd; step; try discriminate
  end.
  intros [= _ <-]. right. exists n, s, d.
  split; [eapply read_uint32_range, Hs|].
  split; [eapply read_uint32_range, Hd|reflexivity].
Qed.

(** X6.  Whatever the bytes, when construction succeeds every catalog entry
    is stored under its own name, has no data, is not loaded, and has a size
    and a destination address in [0, 2^32). *)
Theorem constructed_entries (contents : list byte) (self : AppInitializer)
  (k : string) (vrd : VrdInfo) :
  AppInitializer_new contents = Ok self → vrd_map_ self !! k = Some vrd →
  name vrd = k ∧ data vrd = [] ∧ is_loaded vrd = false ∧
  0 ≤ size vrd < 2 ^ 32 ∧ 0 ≤ dst_addr vrd < 2 ^ 32.
Proof.
  intros Hnew. apply AppInitializer_new_inv in Hnew as [_ Hloop].
  revert k vrd. generalize dependent (vrd_map_ self).
  assert (Hgen : ∀ fuel pos m m',
             (∀ k vrd, m !! k = Some vrd →
                name vrd = k ∧ data vrd = [] ∧ is_loaded vrd = false ∧
                0 ≤ size vrd < 2 ^ 32 ∧ 0 ≤ dst_addr vrd < 2 ^ 32) →
             parse_loop fuel contents pos m = Ok m' →
             ∀ k vrd, m' !! k = Some vrd →
                name vrd = k ∧ data vrd = [] ∧ is_loaded vrd = false ∧
                0 ≤ size vrd < 2 ^ 32 ∧ 0 ≤ dst_addr vrd < 2 ^ 32).
  { induction fuel as [|fuel IH]; intros pos m m' Hm; simpl.
    - destruct (pos <? vsize contents); [discriminate|]. intros [= <-]. exact Hm.
    - destruct (pos <? vsize contents); [|intros [= <-]; exact Hm].
      destruct (parse_command contents pos m) as [[pos1 m1]| | |] eqn:Hc;
        step; try discriminate.
      apply IH.
      apply parse_command_entry in Hc as [->|(n & s & d & Hs & Hd & ->)];
        [exact Hm|].
      intros k vrd. rewrite lookup_insert.
      case_decide as Hk; [intros [= <-]; subst; cbn; auto|apply Hm]. }
  intros m Hloop. eapply Hgen; [|exact Hloop].
  intros k vrd. rewrite lookup_empty. discriminate.
Qed.

Lemma constructed_entries_witness :
  name (declared_entry "test_vrd" 16 8192) = "test_vrd"%string ∧
  data (declared_entry "test_vrd" 16 8192) = [] ∧
  is_loaded (declared_entry "test_vrd" 16 8192) = false ∧
  0 ≤ size (declared_entry "test_vrd" 16 8192) < 2 ^ 32 ∧
  0 ≤ dst_addr (declared_entry "test_vrd" 16 8192) < 2 ^ 32.
Proof.
  apply (constructed_entries sample_sequence sample_initializer); evaluate.
Defined.

(** ** Introspection and injection *)

(** X7.  [has_vrd], [get_vrd_info] and [load_vrd_data] agree on which names
    exist: [has_vrd] is false exactly when [get_vrd_info] throws the
    not-found error, and exactly when every [load_vrd_data] for that name
    throws it and leaves the object unchanged; it is true exactly when
    [get_vrd_info] returns an entry and no load throws not-found. *)
Theorem not_found_agreement (self : AppInitializer) (vrd_name : string) :
  (has_vrd self vrd_name = false ↔
   get_vrd_info self vrd_name = Throw (VrdNotFound vrd_name)) ∧
  (has_vrd self vrd_name = false ↔
   ∀ new_data : list byte,
     load_vrd_data vrd_name new_data self = (Throw (VrdNotFound vrd_name), self)) ∧
  (has_vrd self vrd_name = true ↔
   ∃ vrd, get_vrd_info self vrd_name = Ok vrd ∧
          ∀ new_data : list byte,
            (load_vrd_data vrd_name new_data self).1 ≠ Throw (VrdNotFound vrd_name)).
Proof.
  unfold has_vrd, get_vrd_info, load_vrd_data.
  destruct (vrd_map_ self !! vrd_name) as [vrd|] eqn:Hvrd; cbn [from_option].
  - rewrite bool_decide_eq_true_2 by eauto. repeat split; try discriminate.
    + intros Hall. specialize (Hall []). revert Hall.
      case_bool_decide; discriminate.
    + intros _. exists vrd. split; [reflexivity|]. intros new_data.
      case_bool_decide; cbn; discriminate.
  - rewrite bool_decide_eq_false_2 by (intros [? [=]]). repeat split; try discriminate.
    intros (vrd & [=] & _).
Qed.

(** X8.  No call adds or removes a catalog entry or touches the binary
    sequence: after any calls the set of names, [get_vrd_count] and every
    answer of [has_vrd] are as before. *)
Theorem session_keeps_names (self : AppInitializer) (calls : list call) :
  binary_sequence_ (after_calls calls self) = binary_sequence_ self ∧
  dom (vrd_map_ (after_calls calls self)) = dom (vrd_map_ self) ∧
  get_vrd_count (after_calls calls self) = get_vrd_count self ∧
  ∀ vrd_name : string,
    has_vrd (after_calls calls self) vrd_name = has_vrd self vrd_name.
Proof.
  assert (Hdom : dom (vrd_map_ (after_calls calls self)) = dom (vrd_map_ self)).
  { revert self. induction calls as [|c calls IH]; intros self; [reflexivity|].
    cbn [after_calls foldl]. fold (after_calls calls (after_call c self)).
    rewrite IH. destruct c as [vrd_name new_data|]; [|reflexivity].
    unfold after_call, load_vrd_data.
    destruct (vrd_map_ self !! vrd_name) as [vrd|] eqn:Hvrd; [|reflexivity].
    case_bool_decide; [reflexivity|]. cbn [snd vrd_map_].
    apply dom_insert_lookup_L. eauto. }
  split; [apply binary_sequence_calls|]. split; [exact Hdom|]. split.
  - unfold get_vrd_count. rewrite <- !size_dom, Hdom. reflexivity.
  - intros vrd_name. unfold has_vrd. apply bool_decide_ext.
    rewrite <- !elem_of_dom, Hdom. reflexivity.
Qed.

Lemma loaded_after_load (self : AppInitializer) (vrd_name : string)
  (new_data : list byte) (k : string) (vrd : VrdInfo) :
  vrd_map_ self !! k = Some vrd → is_loaded vrd = true →
  ∃ vrd', vrd_map_ (load_vrd_data vrd_name new_data self).2 !! k = Some vrd' ∧
          is_loaded vrd' = true.
Proof.
  intros Hk Hl. unfold load_vrd_data.
  destruct (vrd_map_ self !! vrd_name) as [vrd0|] eqn:Hvrd; [|eauto].
  case_bool_decide; [eauto|]. cbn [snd vrd_map_].
  rewrite lookup_insert. case_decide; eauto.
Qed.

(** X9.  An entry that is loaded stays loaded: no sequence of calls, with
    loads that return or throw, brings it back to not loaded. *)
Theorem loaded_stays_loaded (self : AppInitializer) (calls : list call)
  (k : string) (vrd : VrdInfo) :
  vrd_map_ self !! k = Some vrd → is_loaded vrd = true →
  ∃ vrd', vrd_map_ (after_calls calls self) !! k = Some vrd' ∧
          is_loaded vrd' = true.
Proof.
  revert self vrd. induction calls as [|c calls IH]; intros self vrd Hk Hl; [eauto|].
  cbn [after_calls foldl]. fold (after_calls calls (after_call c self)).
  destruct c as [vrd_name new_data|]; cbn [after_call]; [|eauto].
  destruct (loaded_after_load self vrd_name new_data k vrd Hk Hl) as (vrd1 & Hk1 & Hl1).
  eauto.
Qed.

Lemma loaded_stays_loaded_witness :
  ∃ vrd', vrd_map_ (after_calls [LoadVrdData "test_vrd" [x00]; GenerateInitSequence]
                      (load_vrd_data "test_vrd" sample_vrd_data sample_initializer).2)
            !! "test_vrd"%string = Some vrd' ∧
          is_loaded vrd' = true.
Proof.
  apply (loaded_stays_loaded _ _ _
           (with_data (declared_entry "test_vrd" 16 8192) sample_vrd_data));
    reflexivity.
Defined.

(** The outcome of a load and the entry it reads only depend on the entry of
    its own name. *)
Lemma load_vrd_data_other (self : AppInitializer) (vrd_name other : string)
  (new_data other_data : list byte) :
  vrd_name ≠ other →
  (load_vrd_data vrd_name new_data (load_vrd_data other other_data self).2).1 =
    (load_vrd_data vrd_name new_data self).1 ∧
  vrd_map_ (load_vrd_data vrd_name new_data
              (load_vrd_data other other_data self).2).2 =
    match (load_vrd_data vrd_name new_data self).1,
          vrd_map_ self !! vrd_name with
    | Ok _, Some vrd =>
        <[vrd_name := with_data vrd new_data]>
          (vrd_map_ (load_vrd_data other other_data self).2)
    | _, _ => vrd_map_ (load_vrd_data other other_data self).2
    end.
Proof.
  intros Hne.
  assert (Hlook : vrd_map_ (load_vrd_data other other_data self).2 !! vrd_name =
                  vrd_map_ self !! vrd_name).
  { unfold load_vrd_data. destruct (vrd_map_ self !! other); [|reflexivity].
    case_bool_decide; [reflexivity|]. cbn [snd vrd_map_].
    apply lookup_insert_ne. congruence. }
  unfold load_vrd_data at 1 3 4 6. rewrite Hlook.
  destruct (vrd_map_ self !! vrd_name) as [vrd|]; [|split; reflexivity].
  case_bool_decide; split; reflexivity.
Qed.

(** X10.  Loads for two different names commute: each has the outcome it has
    alone, whichever comes first, and the two orders leave the same object. *)
Theorem loads_commute (self : AppInitializer) (name1 name2 : string)
  (data1 data2 : list byte) :
  name1 ≠ name2 →
  let first1 := load_vrd_data name1 data1 self in
  let first2 := load_vrd_data name2 data2 self in
  (load_vrd_data name2 data2 first1.2).1 = first2.1 ∧
  (load_vrd_data name1 data1 first2.2).1 = first1.1 ∧
  (load_vrd_data name2 data2 first1.2).2 = (load_vrd_data name1 data1 first2.2).2.
Proof.
  intros Hne first1 first2.
  destruct (load_vrd_data_other self name2 name1 data2 data1) as [Ho21 Hm21];
    [congruence|].
  destruct (load_vrd_data_other self name1 name2 data1 data2) as [Ho12 Hm12];
    [congruence|].
  subst first1 first2.
  split; [exact Ho21|]. split; [exact Ho12|].
  assert (Hbin : ∀ n d s, binary_sequence_ (load_vrd_data n d s).2 = binary_sequence_ s).
  { intros n d s. unfold load_vrd_data. destruct (vrd_map_ s !! n); [|reflexivity].
    case_bool_decide; reflexivity. }
  assert (Hrec : ∀ a b : AppInitializer,
             binary_sequence_ a = binary_sequence_ b → vrd_map_ a = vrd_map_ b → a = b).
  { intros [a1 a2] [b1 b2]. cbn. intros -> ->. reflexivity. }
  apply Hrec; [rewrite !Hbin; reflexivity|].
  rewrite Hm21, Hm12. clear Hm21 Hm12 Ho21 Ho12.
  unfold load_vrd_data.
  destruct (vrd_map_ self !! name1) as [vrd1|] eqn:H1;
    destruct (vrd_map_ self !! name2) as [vrd2|] eqn:H2;
    repeat case_bool_decide; cbn [fst snd vrd_map_]; try reflexivity.
  apply insert_insert_ne. congruence.
Qed.

Lemma loads_commute_witness :
  let self := {| binary_sequence_ := [];
                 vrd_map_ := {["a"%string := declared_entry "a" 1 0;
                               "b"%string := declared_entry "b" 0 0]} |} in
  (load_vrd_data "b" [] (load_vrd_data "a" [x01] self).2).2 =
  (load_vrd_data "a" [x01] (load_vrd_data "b" [] self).2).2.
Proof.
  intros self.
  exact (proj2 (proj2 (loads_commute self "a" "b" [x01] []
                         ltac:(discriminate)))).
Defined.

(** X11.  After a load that returned, a further load for the same name has
    the outcome it would have had without the first; when its data has the
    same length it returns and leaves the object that it alone would have
    left, and loading the same data again changes nothing. *)
Theorem later_load_supersedes (self self1 : AppInitializer) (vrd_name : string)
  (data1 data2 : list byte) :
  load_vrd_data vrd_name data1 self = (Ok (), self1) →
  (load_vrd_data vrd_name data2 self1).1 = (load_vrd_data vrd_name data2 self).1 ∧
  (vsize data2 = vsize data1 →
   load_vrd_data vrd_name data2 self1 = load_vrd_data vrd_name data2 self) ∧
  load_vrd_data vrd_name data1 self1 = (Ok (), self1).
Proof.
  unfold load_vrd_data.
  destruct (vrd_map_ self !! vrd_name) as [vrd|] eqn:Hvrd; [|discriminate].
  case_bool_decide as H1; [discriminate|]. intros [= <-].
  cbn [vrd_map_ binary_sequence_]. rewrite lookup_insert_eq. cbn [size name dst_addr].
  rewrite (bool_decide_eq_false_2 (vsize data1 ≠ size vrd))
    by (intros Hc; exact (Hc H1)).
  rewrite !insert_insert_eq. split; [|split].
  - case_bool_decide; reflexivity.
  - intros H2. rewrite bool_decide_eq_false_2 by (intros Hc; apply Hc; congruence).
    reflexivity.
  - reflexivity.
Qed.

Lemma later_load_supersedes_witness :
  (load_vrd_data "test_vrd" [x00]
     (load_vrd_data "test_vrd" sample_vrd_data sample_initializer).2).1 =
  (load_vrd_data "test_vrd" [x00] sample_initializer).1.
Proof.
  apply (later_load_supersedes sample_initializer _ "test_vrd" sample_vrd_data [x00]).
  reflexivity.
Defined.

(** ** The outcomes of generation *)

Lemma of_uint8_inj (b1 b2 : byte) : of_uint8 b1 = of_uint8 b2 → b1 = b2.
Proof. intros Heq. rewrite <- (to_of_uint8 b1), <- (to_of_uint8 b2), Heq. reflexivity. Qed.

Lemma generate_command_throw (v : list byte) (vrd_map : gmap string VrdInfo)
  (pos : Z) (init_sequence : list byte) (e : exception) :
  generate_command v vrd_map pos init_sequence = Throw e →
  e = MapOutOfRange ∨
  ∃ tag : byte, tag ≠ x01 ∧ tag ≠ x02 ∧ tag ≠ x04 ∧
                e = UnknownCommandType (of_uint8 tag).
Proof.
  unfold generate_command.
  destruct (at_index_cases v pos) as [->|[tag ->]]; step; [discriminate|].
  destruct (read_uint32_cases v (wrap64 (pos + 1))) as [->|[len ->]]; step;
    [discriminate|].
  destruct (CommandType_of_byte tag) eqn:E.
  - destruct (copy_bytes_cases v
                (append_uint32 (init_sequence ++ [CommandType_to_byte APB_WRITE]) len)
                (wrap64 (wrap64 (pos + 1) + 4)) len) as [->|[o ->]];
      step; discriminate.
  - destruct (string_at_cases v (wrap64 (wrap64 (pos + 1) + 4)) (wrap32 (len - 8)))
      as [->|[n ->]]; step; [discriminate|].
    unfold map_at. destruct (vrd_map !! n); cbn [from_option]; step;
      [discriminate|]. intros [= <-]. left. reflexivity.
  - step. intros [= <-]. right. exists tag.
    rewrite <- E. unfold CommandType_to_int. rewrite CommandType_to_of_byte.
    repeat split; try reflexivity; intros ->; discriminate E.
  - destruct (copy_bytes_cases v
                (append_uint32 (init_sequence ++ [CommandType_to_byte DMA_WRITE]) len)
                (wrap64 (wrap64 (pos + 1) + 4)) len) as [->|[o ->]];
      step; discriminate.
  - step. intros [= <-]. right. exists tag.
    rewrite <- E. unfold CommandType_to_int. rewrite CommandType_to_of_byte.
    repeat split; try reflexivity; intros ->; discriminate E.
Qed.

Lemma generate_loop_throw (fuel : nat) :
  ∀ (v : list byte) (vrd_map : gmap string VrdInfo) (pos : Z)
    (init_sequence : list byte) (e : exception),
    generate_loop fuel v vrd_map pos init_sequence = Throw e →
    e = MapOutOfRange ∨
    ∃ tag : byte, tag ≠ x01 ∧ tag ≠ x02 ∧ tag ≠ x04 ∧
                  e = UnknownCommandType (of_uint8 tag).
Proof.
  induction fuel as [|fuel IH]; intros v m pos out e; simpl;
    destruct (pos <? vsize v); try discriminate.
  destruct (generate_command v m pos out) as [[pos' out']| | |] eqn:Hc; step;
    try discriminate.
  - apply IH.
  - intros [= <-]. eapply generate_command_throw, Hc.
Qed.

Section Outcomes.
Context `{Traversal}.

(** X13.  What an outcome of [generate_init_sequence] says: it returns, or
    fails after the first loop, only when every entry is loaded; a
    not-loaded error names an entry that is not loaded; an unknown-command
    error carries a byte value other than 1, 2 and 4; the errors of
    [load_vrd_data] are never thrown. *)
Theorem generate_init_sequence_outcomes (self : AppInitializer) :
  match generate_init_sequence self with
  | Throw (VrdNotLoaded k) =>
      ∃ vrd, vrd_map_ self !! k = Some vrd ∧ is_loaded vrd = false
  | Throw (UnknownCommandType t) =>
      all_loaded self ∧ 0 ≤ t < 256 ∧ t ≠ 1 ∧ t ≠ 2 ∧ t ≠ 4
  | Throw (VrdNotFound _) | Throw (VrdSizeMismatch _ _ _) => False
  | Ok _ | Throw MapOutOfRange | Undefined | OutOfFuel => all_loaded self
  end.
Proof.
  unfold generate_init_sequence.
  destruct (first_not_loaded (vrd_map_ self)) as [[k vrd]|] eqn:Hf.
  - unfold first_not_loaded in Hf. apply List.find_some in Hf as [Hin Hneg].
    apply list_elem_of_In in Hin. rewrite traverse_perm in Hin.
    apply elem_of_map_to_list in Hin. cbn in *. exists vrd.
    split; [exact Hin|]. destruct (is_loaded vrd); [discriminate|reflexivity].
  - pose proof (proj1 (first_not_loaded_None _) Hf) as Hall. clear Hf.
    rename Hall into Hf. fold (all_loaded self) in Hf.
    destruct (generate_loop _ _ _ _ _) as [out|e| |] eqn:Hloop; try exact Hf.
    apply generate_loop_throw in Hloop as [->|(tag & H1 & H2 & H4 & ->)];
      [exact Hf|].
    split; [exact Hf|]. split; [apply of_uint8_range|].
    repeat split; intros Heq; [apply H1|apply H2|apply H4];
      apply of_uint8_inj; rewrite Heq; reflexivity.
Qed.
End Outcomes.

(** X12.  The traversal order of the map only chooses the name in the
    not-loaded error: under two orders, either every entry is loaded and the
    two generations have the same outcome, or both throw the not-loaded
    error, each naming an entry that is not loaded. *)
Theorem generation_traversal_independent (T1 T2 : Traversal) (self : AppInitializer) :
  (all_loaded self ∧
   @generate_init_sequence T1 self = @generate_init_sequence T2 self) ∨
  (∃ k1 k2 vrd1 vrd2,
     vrd_map_ self !! k1 = Some vrd1 ∧ is_loaded vrd1 = false ∧
     vrd_map_ self !! k2 = Some vrd2 ∧ is_loaded vrd2 = false ∧
     @generate_init_sequence T1 self = Throw (VrdNotLoaded k1) ∧
     @generate_init_sequence T2 self = Throw (VrdNotLoaded k2)).
Proof.
  assert (Hsome : ∀ (T : Traversal) k vrd,
             @first_not_loaded T (vrd_map_ self) = Some (k, vrd) →
             vrd_map_ self !! k = Some vrd ∧ is_loaded vrd = false).
  { intros T k vrd Hf. unfold first_not_loaded in Hf.
    apply List.find_some in Hf as [Hin Hneg].
    apply list_elem_of_In in Hin. rewrite traverse_perm in Hin.
    apply elem_of_map_to_list in Hin. cbn in *.
    split; [exact Hin|]. destruct (is_loaded vrd); [discriminate|reflexivity]. }
  unfold generate_init_sequence.
  destruct (@first_not_loaded T1 (vrd_map_ self)) as [[k1 vrd1]|] eqn:Hf1;
    destruct (@first_not_loaded T2 (vrd_map_ self)) as [[k2 vrd2]|] eqn:Hf2.
  - right. exists k1, k2, vrd1, vrd2.
    destruct (Hsome _ _ _ Hf1) as [? ?]. destruct (Hsome _ _ _ Hf2) as [? ?]. auto 10.
  - exfalso. destruct (Hsome _ _ _ Hf1) as [Hk Hl].
    rewrite (proj1 (first_not_loaded_None _) Hf2 _ _ Hk) in Hl. discriminate.
  - exfalso. destruct (Hsome _ _ _ Hf2) as [Hk Hl].
    rewrite (proj1 (first_not_loaded_None _) Hf1 _ _ Hk) in Hl. discriminate.
  - left. split; [exact (proj1 (first_not_loaded_None _) Hf1)|reflexivity].
Qed.

(** ** The generated sequence, command by command *)

Lemma emitted_generated (vrd_map : gmap string VrdInfo) (c : command) :
  accepted vrd_map c →
  emitted vrd_map c = wire_command (generated_command vrd_map c) ∧
  passthrough (generated_command vrd_map c).
Proof.
  destruct c as [tag body|n s d]; cbn [accepted emitted generated_command]; [auto|].
  intros [vrd ->]. cbn [from_option wire_command passthrough]. split; [|auto].
  unfold dma_write. rewrite !vsize_app, !vsize_uint32_le.
  replace (4 + (4 + vsize (data vrd))) with (vsize (data vrd) + 8) by lia.
  reflexivity.
Qed.

Lemma emitted_all_generated (vrd_map : gmap string VrdInfo) (cs : list command) :
  Forall (accepted vrd_map) cs →
  emitted_all vrd_map cs = wire (map (generated_command vrd_map) cs) ∧
  Forall passthrough (map (generated_command vrd_map) cs).
Proof.
  induction 1 as [|c cs Hc Hcs [IH1 IH2]]; [split; [reflexivity|constructor]|].
  destruct (emitted_generated vrd_map c Hc) as [Hem Hpass].
  rewrite emitted_all_cons, Hem, IH1. cbn [map]. rewrite wire_cons.
  split; [reflexivity|]. constructor; assumption.
Qed.

Lemma session_accepted (cs : list command) (calls : list call)
  (self : AppInitializer) :
  AppInitializer_new (wire cs) = Ok self → Forall well_formed cs →
  vsize (wire cs) < 2 ^ 63 → Forall generable cs →
  Forall (accepted (vrd_map_ (after_calls calls self))) cs.
Proof.
  intros Hnew Hwf Hsz Hgen.
  destruct (session_invariant _ _ calls Hnew) as [_ Hinv].
  rewrite AppInitializer_new_wire in Hnew by assumption.
  injection Hnew as <-. cbn [vrd_map_] in Hinv.
  eapply generable_accepted; [exact Hgen|exact Hinv|].
  intros n s d Hin. eapply declare_declared, Hin.
Qed.

Section Generated.
Context `{Traversal}.

(** X14.  For a sequence of well-formed APB writes, DMA writes and
    declarations, in any number, once every entry is loaded generation
    returns the sequence command by command: every write unchanged, every
    declaration replaced by the DMA write of its VRD's destination, data
    length and data; the result holds APB and DMA writes only. *)
Theorem generated_sequence (cs : list command) :
  Forall well_formed cs → Forall generable cs → vsize (wire cs) < 2 ^ 63 →
  ∃ self : AppInitializer,
    AppInitializer_new (wire cs) = Ok self ∧
    ∀ calls : list call,
      let self' := after_calls calls self in
      all_loaded self' →
      generate_init_sequence self' =
        Ok (wire (map (generated_command (vrd_map_ self')) cs)) ∧
      Forall passthrough (map (generated_command (vrd_map_ self')) cs).
Proof.
  intros Hwf Hgen Hsz.
  pose proof (AppInitializer_new_wire cs Hwf Hsz) as Hnew.
  eexists. split; [exact Hnew|]. intros calls self' Hloaded.
  pose proof (session_accepted cs calls _ Hnew Hwf Hsz Hgen) as Hacc.
  fold self' in Hacc.
  destruct (session_invariant _ _ calls Hnew) as [Hbin _]. fold self' in Hbin.
  destruct (emitted_all_generated _ _ Hacc) as [Hem Hpass].
  split; [|exact Hpass].
  rewrite <- Hem. apply generate_init_sequence_wire; try assumption.
  apply first_not_loaded_None, Hloaded.
Qed.
End Generated.

Lemma generated_sequence_witness :
  ∃ self : AppInitializer,
    AppInitializer_new (wire [sample_apb_write; sample_declaration; sample_dma_write])
      = Ok self ∧
    generate_init_sequence
      (after_calls [LoadVrdData "test_vrd" sample_vrd_data] self) =
      Ok (wire [sample_apb_write;
                Opaque x04 (uint32_le 8192 ++ uint32_le 16 ++ sample_vrd_data);
                sample_dma_write]).
Proof.
  destruct (generated_sequence [sample_apb_write; sample_declaration; sample_dma_write])
    as (self & Hnew & Hgen).
  - repeat constructor; evaluate.
  - each_command.
  - evaluate.
  - exists self. split; [exact Hnew|].
    rewrite AppInitializer_new_wire in Hnew; [|repeat constructor; evaluate|evaluate].
    injection Hnew as <-.
    destruct (Hgen [LoadVrdData "test_vrd" sample_vrd_data]) as [Hout _].
    + intros k vrd. cbn [after_calls foldl after_call].
      rewrite (load_vrd_data_match _ "test_vrd"
                 (declared_entry "test_vrd" 16 8192) sample_vrd_data);
        [|reflexivity|reflexivity].
      cbn [snd with_entry vrd_map_]. intros Hk.
      apply lookup_insert_Some in Hk as [[_ <-]|[Hne Hk]]; [reflexivity|].
      cbn [foldl declare sample_apb_write sample_declaration sample_dma_write] in Hk.
      rewrite lookup_insert_ne, lookup_empty in Hk by exact Hne. discriminate.
    + rewrite Hout. vm_compute. reflexivity.
Defined.

(** ** Generating from a generated sequence *)

Lemma declare_lookup_Some (cs : list command) :
  ∀ (m : gmap string VrdInfo) (n : string) (vrd : VrdInfo),
    foldl declare m cs !! n = Some vrd →
    m !! n = Some vrd ∨
    ∃ s d, Declaration n s d ∈ cs ∧ vrd = declared_entry n s d.
Proof.
  induction cs as [|c cs IH]; intros m n vrd Hn; [auto|].
  cbn [foldl] in Hn. apply IH in Hn as [Hn|(s & d & Hin & ->)].
  - destruct c as [tag body|n' s' d']; cbn [declare] in Hn; [auto|].
    apply lookup_insert_Some in Hn as [[<- <-]|[_ Hn]]; [|auto].
    right. exists s', d'. split; [left|reflexivity].
  - right. exists s, d. split; [right; exact Hin|reflexivity].
Qed.

Section Regenerate.
Context `{Traversal}.

Lemma generated_all_loaded (self : AppInitializer) (output : list byte) :
  generate_init_sequence self = Ok output → all_loaded self.
Proof.
  unfold generate_init_sequence.
  destruct (first_not_loaded (vrd_map_ self)) eqn:Hf; [discriminate|].
  intros _. exact (proj1 (first_not_loaded_None _) Hf).
Qed.

(** X15.  The output of a generation is a fixed point: when the declared
    sizes leave room for the 8 bytes of destination and length, an object
    constructed from the output has an empty catalog and generates the
    output itself. *)
Theorem generated_sequence_stable (cs : list command) :
  Forall well_formed cs → Forall generable cs → vsize (wire cs) < 2 ^ 63 →
  (∀ n s d, Declaration n s d ∈ cs → s + 8 < 2 ^ 32) →
  ∃ self : AppInitializer,
    AppInitializer_new (wire cs) = Ok self ∧
    ∀ (calls : list call) (output : list byte),
      generate_init_sequence (after_calls calls self) = Ok output →
      vsize output < 2 ^ 63 →
      ∃ again : AppInitializer,
        AppInitializer_new output = Ok again ∧
        get_vrd_count again = 0%nat ∧
        generate_init_sequence again = Ok output.
Proof.
  intros Hwf Hgen Hsz Hsmall.
  pose proof (AppInitializer_new_wire cs Hwf Hsz) as Hnew.
  eexists. split; [exact Hnew|]. intros calls output Hout Hosz.
  set (self' := after_calls calls _) in *.
  pose proof (generated_all_loaded _ _ Hout) as Hloaded.
  pose proof (session_accepted cs calls _ Hnew Hwf Hsz Hgen) as Hacc.
  fold self' in Hacc.
  destruct (session_invariant _ _ calls Hnew) as [Hbin Hinv].
  fold self' in Hbin, Hinv. cbn [vrd_map_] in Hinv.
  destruct (emitted_all_generated _ _ Hacc) as [Hem Hpass].
  rewrite (generate_init_sequence_wire self' cs) in Hout;
    [|assumption|assumption|assumption|assumption|apply first_not_loaded_None, Hloaded].
  injection Hout as <-. rewrite Hem in *.
  set (out := map (generated_command (vrd_map_ self')) cs) in *.
  assert (Hwfo : Forall well_formed out).
  { unfold out. apply Forall_map. apply Forall_forall. intros c Hc.
    rewrite Forall_forall in Hwf, Hacc.
    specialize (Hwf c Hc). specialize (Hacc c Hc).
    destruct c as [tag body|n s d]; cbn [generated_command]; [exact Hwf|].
    destruct Hacc as [vrd Hvrd]. rewrite Hvrd. cbn [well_formed].
    split; [discriminate|].
    specialize (Hinv n). rewrite Hvrd in Hinv.
    destruct (foldl declare ∅ cs !! n) as [vrd0|] eqn:Hvrd0; [|contradiction].
    destruct Hinv as [(_ & Hsize & _) Hfits].
    apply declare_lookup_Some in Hvrd0 as [Hempty|(s0 & d0 & Hin & ->)];
      [rewrite lookup_empty in Hempty; discriminate|].
    cbn [declared_entry size] in Hsize.
    rewrite !vsize_app, !vsize_uint32_le, (Hfits (Hloaded _ _ Hvrd)), Hsize.
    specialize (Hsmall _ _ _ Hin). lia. }
  eexists. split; [apply AppInitializer_new_wire; assumption|].
  unfold get_vrd_count. cbn [vrd_map_].
  rewrite passthrough_declare by assumption.
  split; [apply map_size_empty|].
  rewrite (generate_init_sequence_wire _ out); cbn [binary_sequence_ vrd_map_];
    try assumption; try reflexivity.
  - rewrite passthrough_emitted by assumption. reflexivity.
  - apply passthrough_accepted, Hpass.
  - apply first_not_loaded_None. intros k vrd. rewrite lookup_empty. discriminate.
Qed.
End Regenerate.

Lemma generated_sequence_stable_witness :
  ∃ self : AppInitializer,
    AppInitializer_new (wire [sample_apb_write; sample_declaration; sample_dma_write])
      = Ok self ∧
    ∀ (calls : list call) (output : list byte),
      generate_init_sequence (after_calls calls self) = Ok output →
      vsize output < 2 ^ 63 →
      ∃ again : AppInitializer,
        AppInitializer_new output = Ok again ∧
        get_vrd_count again = 0%nat ∧
        generate_init_sequence again = Ok output.
Proof.
  apply (generated_sequence_stable
           [sample_apb_write; sample_declaration; sample_dma_write]).
  - repeat constructor; evaluate.
  - each_command.
  - evaluate.
  - intros n s d Hin.
    unfold sample_apb_write, sample_declaration, sample_dma_write in Hin.
    apply elem_of_cons in Hin as [[=]|Hin].
    apply elem_of_cons in Hin as [[= _ -> _]|Hin]; [lia|].
    apply elem_of_cons in Hin as [[=]|Hin]. inversion Hin.
Defined.

(** ** Sequences that end inside a header or inside a write *)

(** X16.  A sequence that ends with one to four bytes after well-formed
    commands, too few for a tag and a length: the parse reads the length
    outside the vector, and the behaviour of the constructor is undefined. *)
Theorem truncated_header_undefined (cs : list command) (rest : list byte) :
  Forall well_formed cs → 0 < vsize rest < 5 → vsize (wire cs ++ rest) < 2 ^ 63 →
  AppInitializer_new (wire cs ++ rest) = Undefined.
Proof.
  intros Hwf Hrest Hsz.
  pose proof (vsize_nonneg (wire cs)) as Hw.
  unfold AppInitializer_new, parse_binary_sequence. cbn [binary_sequence_ vrd_map_].
  rewrite parse_after_prefix; [|assumption|assumption|lia].
  destruct (parse_command_cases (wire cs ++ rest) (vsize (wire cs))
              (foldl declare ∅ cs)) as [->|[[pos' m'] Hc]]; [reflexivity|].
  exfalso.
  apply parse_command_Ok in Hc as (tag & len & _ & _ & _ & Hhdr & _); [|lia|lia].
  rewrite vsize_app in Hhdr. lia.
Qed.

Lemma truncated_header_undefined_witness :
  AppInitializer_new (wire [sample_apb_write] ++ [x04; x0c; x00]) = Undefined.
Proof.
  apply truncated_header_undefined.
  - repeat constructor; evaluate.
  - split; evaluate.
  - evaluate.
Defined.

Lemma AppInitializer_new_skip_last (cs : list command) (tag : byte) (len : Z)
  (rest : list byte) :
  let contents := wire cs ++ tag :: uint32_le len ++ rest in
  Forall well_formed cs → tag ≠ x02 → 0 ≤ len < 2 ^ 32 → vsize rest < len →
  vsize contents < 2 ^ 63 →
  AppInitializer_new contents =
    Ok {| binary_sequence_ := contents; vrd_map_ := foldl declare ∅ cs |}.
Proof.
  intros contents Hwf Htag Hlen Hrest Hsz.
  pose proof (vsize_nonneg rest) as Hr. pose proof (vsize_nonneg (wire cs)) as Hw.
  unfold AppInitializer_new, parse_binary_sequence. cbn [binary_sequence_ vrd_map_].
  unfold contents at 1 2.
  rewrite parse_after_prefix; [|assumption|assumption|sizes].
  fold contents.
  rewrite (parse_command_skip contents (wire cs) rest tag len);
    [|reflexivity|assumption|assumption|assumption].
  step. rewrite parse_loop_end; [reflexivity|].
  unfold contents. rewrite vsize_app, vsize_cons, vsize_app, vsize_uint32_le. lia.
Qed.

Section TruncatedWrite.
Context `{Traversal}.

(** X17.  A sequence that ends in an APB or DMA write whose body is shorter
    than its declared length: construction succeeds, but generation, once
    every entry is loaded, copies from outside the vector, and its
    behaviour is undefined. *)
Theorem truncated_write_generation (cs : list command) (tag : byte) (len : Z)
  (rest : list byte) :
  let contents := wire cs ++ tag :: uint32_le len ++ rest in
  Forall well_formed cs → Forall generable cs → tag = x01 ∨ tag = x04 →
  0 ≤ len < 2 ^ 32 → vsize rest < len → vsize contents < 2 ^ 63 →
  ∃ self : AppInitializer,
    AppInitializer_new contents = Ok self ∧
    ∀ calls : list call,
      all_loaded (after_calls calls self) →
      generate_init_sequence (after_calls calls self) = Undefined.
Proof.
  intros contents Hwf Hgen Htag Hlen Hrest Hsz.
  pose proof (vsize_nonneg rest) as Hr. pose proof (vsize_nonneg (wire cs)) as Hw.
  assert (Hsize : vsize contents = vsize (wire cs) + 5 + vsize rest).
  { unfold contents. sizes. }
  pose proof (AppInitializer_new_skip_last cs tag len rest Hwf
                ltac:(destruct Htag as [-> | ->]; discriminate) Hlen Hrest Hsz)
    as Hnew.
  fold contents in Hnew. eexists. split; [exact Hnew|]. intros calls Hloaded.
  destruct (session_invariant _ _ calls Hnew) as [Hbin Hinv].
  cbn [vrd_map_] in Hinv.
  unfold generate_init_sequence.
  rewrite (proj2 (first_not_loaded_None _) Hloaded), Hbin.
  change 0 with (vsize []).
  unfold contents at 1 2.
  rewrite (generate_loop_prefix cs _ _ [] (tag :: uint32_le len ++ rest));
    [|reflexivity|assumption|exact Hsz| |apply wire_fuel].
  2:{ eapply generable_accepted; [exact Hgen|exact Hinv|].
      intros n s d Hin. eapply declare_declared, Hin. }
  fold contents.
  pose proof (wire_length cs) as Hwl.
  destruct (length contents - length cs)%nat as [|fuel] eqn:Hfuel.
  { unfold vsize in *. lia. }
  rewrite vsize_nil, Z.add_0_l, app_nil_l.
  rewrite generate_loop_step by lia.
  unfold generate_command.
  rewrite (at_index_layout contents (wire cs) (uint32_le len ++ rest) tag)
    by reflexivity.
  step. unwrap.
  rewrite (read_uint32_layout contents (wire cs ++ [tag]) rest len);
    [|unfold contents; layout|sizes|assumption].
  step. unwrap.
  assert (Hcopy : ∀ dest, copy_bytes contents dest (vsize (wire cs) + 1 + 4) len
                          = Undefined).
  { intros dest. unfold copy_bytes.
    replace (vsize (wire cs) + 1 + 4 + len <=? vsize contents) with false by lia.
    reflexivity. }
  destruct Htag as [-> | ->]; cbn [CommandType_of_byte]; rewrite Hcopy; reflexivity.
Qed.
End TruncatedWrite.

Lemma truncated_write_generation_witness :
  ∃ self : AppInitializer,
    AppInitializer_new (wire [sample_apb_write] ++ x04 :: uint32_le 12 ++ [x00; x30])
      = Ok self ∧
    generate_init_sequence self = Undefined.
Proof.
  destruct (truncated_write_generation [sample_apb_write] x04 12 [x00; x30])
    as (self & Hnew & Hgen).
  - repeat constructor; evaluate.
  - each_command.
  - right. reflexivity.
  - lia.
  - evaluate.
  - evaluate.
  - exists self. split; [exact Hnew|]. apply (Hgen []).
    rewrite AppInitializer_new_skip_last in Hnew;
      [|repeat constructor; evaluate|discriminate|lia|evaluate|evaluate].
    injection Hnew as <-. intros k vrd. cbn. rewrite lookup_empty. discriminate.
Defined.

(** ** Termination *)

Section Termination.
Context `{Traversal}.

(** X18.  On a vector of fewer than 2^63 bytes both loops terminate within
    the fuel they are given: every iteration that returns moves the position
    on by at least 5. *)
Theorem loops_terminate (contents : list byte) :
  vsize contents < 2 ^ 63 →
  AppInitializer_new contents ≠ OutOfFuel ∧
  ∀ (self : AppInitializer) (calls : list call),
    AppInitializer_new contents = Ok self →
    generate_init_sequence (after_calls calls self) ≠ OutOfFuel.
Proof.
  intros Hsz. split; [apply AppInitializer_new_total, Hsz|].
  intros self calls Hnew. apply generate_init_sequence_total.
  rewrite binary_sequence_calls.
  apply AppInitializer_new_inv in Hnew as [-> _]. exact Hsz.
Qed.
End Termination.

Lemma loops_terminate_witness :
  AppInitializer_new sample_sequence ≠ OutOfFuel ∧
  ∀ (self : AppInitializer) (calls : list call),
    AppInitializer_new sample_sequence = Ok self →
    generate_init_sequence (after_calls calls self) ≠ OutOfFuel.
Proof. apply loops_terminate. evaluate. Defined.
